(** * CMC Review front end: page locator, highlight cache and inline diff

    A shallow embedding of the pieces of the React front end that carry
    the algorithmic content of the review tool:

    - [detectMatchedPage] (App.js) and [normalize] (CmcViewer.jsx):
      text normalisation and the token-containment page locator;
    - [DiffInline] (DiffInline.jsx): the per-segment decision array, the
      final-text effect and [updateState];
    - [handleHighlightSection] (App.js): the highlight cache keyed by
      [hashKey], with the asynchronous POST modelled as events.

    JavaScript strings are modelled by [string], one [ascii] per UTF-16
    code unit; the model therefore covers strings whose code units lie
    in U+0000..U+00FF (Latin-1). *)

From Stdlib Require Import ZArith Ascii String List Bool Lia.
From stdpp Require Import base option list strings gmap.


(** ** JavaScript string primitives used by the front end *)

Module Js.

(** Code unit of a character ([String.prototype.charCodeAt]). *)
Definition charCode (c : ascii) : N := N_of_ascii c.

(** The class [\s] of a JavaScript regular expression, which is also the
    set stripped by [trim]: TAB, LF, VT, FF, CR, SPACE and NBSP are its
    members below U+0100. *)
Definition isWhiteSpace (c : ascii) : bool :=
  let n := charCode c in
  ((9 <=? n) && (n <=? 13) || (n =? 32) || (n =? 160))%N.

Definition isNewline (c : ascii) : bool := (charCode c =? 10)%N.

Definition isHyphen (c : ascii) : bool := (charCode c =? 45)%N.

Definition isSpaceChar (c : ascii) : bool := (charCode c =? 32)%N.

(** [lineBreakLength s] is the number of characters that [\s*\n] consumes
    at the start of [s]: the star is greedy and backtracks, so the match
    ends at the last line feed of the leading white-space run.  [None]
    when that run holds no line feed. *)
Fixpoint lineBreakLength (s : string) : option nat :=
  match s with
  | EmptyString => None
  | String c rest =>
      if isWhiteSpace c then
        match lineBreakLength rest with
        | Some n => Some (S n)
        | None => if isNewline c then Some 1 else None
        end
      else None
  end.

(** [s.replace(/-\s*\n/g, "")].  [skip] counts the characters of the
    current match that are still to be dropped. *)
Fixpoint replaceHyphenBreaks (skip : nat) (s : string) : string :=
  match s with
  | EmptyString => EmptyString
  | String c rest =>
      match skip with
      | S k => replaceHyphenBreaks k rest
      | O =>
          if isHyphen c then
            match lineBreakLength rest with
            | Some n => replaceHyphenBreaks n rest
            | None => String c (replaceHyphenBreaks 0 rest)
            end
          else String c (replaceHyphenBreaks 0 rest)
      end
  end.

(** [s.replace(/\s+/g, " ")].  [inRun] tells that the previous character
    belonged to a white-space run whose single space is already out. *)
Fixpoint collapseWhiteSpace (inRun : bool) (s : string) : string :=
  match s with
  | EmptyString => EmptyString
  | String c rest =>
      if isWhiteSpace c then
        if inRun then collapseWhiteSpace true rest
        else String " " (collapseWhiteSpace true rest)
      else String c (collapseWhiteSpace false rest)
  end.

(** [toLowerCase] on one Latin-1 code unit: A-Z and the accented capitals
    U+00C0..U+00DE (the multiplication sign U+00D7 apart) move up by 32. *)
Definition lowerChar (c : ascii) : ascii :=
  let n := charCode c in
  if ((65 <=? n) && (n <=? 90)
      || (192 <=? n) && (n <=? 222) && negb (n =? 215))%N
  then ascii_of_N (n + 32) else c.

Fixpoint toLowerCase (s : string) : string :=
  match s with
  | EmptyString => EmptyString
  | String c rest => String (lowerChar c) (toLowerCase rest)
  end.

Fixpoint trimStart (s : string) : string :=
  match s with
  | EmptyString => EmptyString
  | String c rest => if isWhiteSpace c then trimStart rest else s
  end.

(** [trimEnd] keeps a character when it is not white space or when
    something that is kept follows it. *)
Fixpoint trimEnd (s : string) : string :=
  match s with
  | EmptyString => EmptyString
  | String c rest =>
      match trimEnd rest with
      | EmptyString => if isWhiteSpace c then EmptyString else String c EmptyString
      | kept => String c kept
      end
  end.

Definition trim (s : string) : string := trimEnd (trimStart s).

(** [s.split(" ")]: always at least one piece; consecutive spaces give
    empty pieces. *)
Fixpoint splitSpace (s : string) : list string :=
  match s with
  | EmptyString => [EmptyString]
  | String c rest =>
      if isSpaceChar c then EmptyString :: splitSpace rest
      else match splitSpace rest with
           | piece :: pieces => String c piece :: pieces
           | [] => [String c EmptyString]
           end
  end.

(** [s.startsWith(w)] and [s.includes(w)]. *)
Fixpoint startsWith (w s : string) : bool :=
  match w, s with
  | EmptyString, _ => true
  | String _ _, EmptyString => false
  | String a w', String b s' => if Ascii.eqb a b then startsWith w' s' else false
  end.

Fixpoint includes (w s : string) : bool :=
  startsWith w s ||
  match s with
  | EmptyString => false
  | String _ rest => includes w rest
  end.

(** [x || ""] for a string-valued field that may be missing. *)
Definition orEmpty (x : option string) : string :=
  match x with
  | Some s => s
  | None => ""
  end.

(** [!x] for such a value: missing and empty are both falsy. *)
Definition falsy (x : option string) : bool :=
  match x with
  | Some s => String.eqb s ""
  | None => true
  end.

(** Shapes of normalised text.  [singleSpaced afterSpace s]: the only
    white space in [s] is the plain space, and never two in a row
    ([afterSpace] tells that a white-space character precedes [s]).
    [startsClean s]: [s] does not start with white space. *)
Fixpoint singleSpaced (afterSpace : bool) (s : string) : bool :=
  match s with
  | EmptyString => true
  | String c rest =>
      if isWhiteSpace c then
        isSpaceChar c && negb afterSpace && singleSpaced true rest
      else singleSpaced false rest
  end.

Definition startsClean (s : string) : bool :=
  match s with
  | EmptyString => true
  | String c _ => negb (isWhiteSpace c)
  end.

End Js.

(** ** Normalisation and the page locator *)

Module Locator.
Import Js.

(** The chain
    [.replace(/-\s*\n/g, "").replace(/\s+/g, " ").toLowerCase().trim()]
    shared by [detectMatchedPage] and [normalize]. *)
Definition normalizeText (s : string) : string :=
  trim (toLowerCase (collapseWhiteSpace false (replaceHyphenBreaks 0 s))).

(** Values a caller can hand to [normalize(text)]. *)
Inductive JsValue :=
  | JsUndefined
  | JsString (s : string).

Inductive JsError := TypeError.

Inductive Completion (A : Type) :=
  | Normal (a : A)
  | Throw (e : JsError).
Arguments Normal {A} a.
Arguments Throw {A} e.

(** [normalize] of CmcViewer.jsx: the method call [text.replace] on
    [undefined] raises a TypeError. *)
Definition normalize (text : JsValue) : Completion string :=
  match text with
  | JsUndefined => Throw TypeError
  | JsString s => Normal (normalizeText s)
  end.

(** [contextNorm.split(" ").filter((w) => w.length > 5)] *)
Definition tokenize (contextNorm : string) : list string :=
  filter (fun w => 5 < String.length w) (splitSpace contextNorm).

Record PageRecord := {
  page_number : Z;
  text : option string
}.

Record DocumentData := {
  num_pages : Z;
  pages : option (list PageRecord)
}.

(** [tokens.forEach((w) => { if (pageNorm.includes(w)) score++; })] *)
Definition countContained (tokens : list string) (pageNorm : string) : nat :=
  fold_left (fun score w => if includes w pageNorm then S score else score)
            tokens 0.

Definition pageScore (tokens : list string) (p : PageRecord) : nat :=
  countContained tokens (normalizeText (orEmpty (text p))).

(** One turn of [for (const p of documentData.pages)] on the running
    [(bestPage, bestScore)]. *)
Definition locateStep (tokens : list string)
    (best : option Z * nat) (p : PageRecord) : option Z * nat :=
  let score := pageScore tokens p in
  if bool_decide (snd best < score) then (Some (page_number p), score)
  else best.

Definition locateLoop (tokens : list string) (ps : list PageRecord)
    (best : option Z * nat) : option Z * nat :=
  fold_left (locateStep tokens) ps best.

Definition detectMatchedPage (sectionText : option string)
    (documentData : option DocumentData) : option Z :=
  match documentData ≫= pages with
  | None => None
  | Some ps =>
      if falsy sectionText then None
      else
        let contextNorm := normalizeText (orEmpty sectionText) in
        let tokens := tokenize contextNorm in
        match tokens with
        | [] => None
        | _ => fst (locateLoop tokens ps (None, 0))
        end
  end.

(** The pages of a document as the loop sees them, and the tokens of an
    excerpt; both empty when the guard of [detectMatchedPage] fires. *)
Definition pagesOf (documentData : option DocumentData) : list PageRecord :=
  default [] (documentData ≫= pages).

Definition excerptTokens (sectionText : option string) : list string :=
  tokenize (normalizeText (orEmpty sectionText)).

End Locator.

(** ** DiffInline: decisions, final text, accept / reject *)

Module DiffInline.
Import Js.

(** A segment as the rewrite service sends it; [orig] and [suggested]
    may be missing, which is why the component reads them through
    [|| ""]. *)
Record DiffSegment := {
  op : string;
  orig : option string;
  suggested : option string
}.

Definition originalSpan (seg : DiffSegment) : string := orEmpty (orig seg).
Definition suggestedSpan (seg : DiffSegment) : string := orEmpty (suggested seg).

(** The [states] array.  A slot is [None] where JavaScript reads
    [undefined]: a hole left by an assignment past the end. *)
Abbreviation States := (list (option string)).

(** [states[idx]] *)
Definition stateAt (states : States) (idx : nat) : option string :=
  mjoin (states !! idx).

(** First effect: the decisions installed when new segments arrive. *)
Definition initStates (diffSegments : list DiffSegment) : States :=
  (fun seg => Some (if String.eqb (op seg) "equal" then "accepted" else "pending"))
  <$> diffSegments.

Definition isState (st : option string) (name : string) : bool :=
  match st with
  | Some s => String.eqb s name
  | None => false
  end.

(** The [switch (seg.op)] of the second effect: what one segment adds to
    [finalText]. *)
Definition segmentText (seg : DiffSegment) (st : option string) : string :=
  if String.eqb (op seg) "equal" then originalSpan seg
  else if String.eqb (op seg) "delete" then
    if isState st "rejected" || isState st "pending" then originalSpan seg else ""
  else if String.eqb (op seg) "replace" then
    if isState st "accepted" then suggestedSpan seg else originalSpan seg
  else if String.eqb (op seg) "insert" then
    if isState st "accepted" then suggestedSpan seg else ""
  else originalSpan seg.

(** [diffSegments.forEach((seg, idx) => ...)] with the accumulator
    [finalText]; [idx] is the index of the first segment of [segs]. *)
Fixpoint forEachSegment (states : States) (idx : nat)
    (segs : list DiffSegment) (finalText : string) : string :=
  match segs with
  | [] => finalText
  | seg :: rest =>
      forEachSegment states (S idx) rest
        (finalText +:+ segmentText seg (stateAt states idx))
  end.

Definition computeFinalText (diffSegments : list DiffSegment)
    (states : States) : string :=
  forEachSegment states 0 diffSegments "".

(** The second effect as a whole: the argument handed to [onTextChange],
    or [None] when the guard returns before the callback is reached. *)
Definition finalTextEffect (hasOnTextChange : bool)
    (diffSegments : list DiffSegment) (states : States) : option string :=
  if negb hasOnTextChange || (List.length diffSegments =? 0)%nat then None
  else Some (computeFinalText diffSegments states).

(** [next[idx] = v] on a copy of the array: an index past the end grows
    the array, leaving holes in between. *)
Definition arraySet (idx : nat) (v : option string) (arr : States) : States :=
  if bool_decide (idx < List.length arr) then <[idx := v]> arr
  else arr ++ replicate (idx - List.length arr) None ++ [v].

(** [updateState]: the updater handed to [setStates].  The call to
    [logEvent] before it only talks to the log service. *)
Definition updateState (idx : nat) (newState : string) (prev : States) : States :=
  arraySet idx (Some newState) prev.

(** The accept and reject buttons that the render attaches to one
    segment, each as the [(idx, newState)] it passes to [updateState]. *)
Definition segmentControls (idx : nat) (seg : DiffSegment)
    (st : option string) : list (nat * string) :=
  if String.eqb (op seg) "equal" then []
  else if String.eqb (op seg) "delete" || String.eqb (op seg) "replace"
          || String.eqb (op seg) "insert" then
    if isState st "accepted" || isState st "rejected" then []
    else [(idx, "accepted"); (idx, "rejected")]
  else [].

(** [diffSegments.map((seg, idx) => ...)] of the render, keeping only
    the controls; [idx] is the index of the first segment of [segs]. *)
Fixpoint mapControls (states : States) (idx : nat)
    (segs : list DiffSegment) : list (nat * string) :=
  match segs with
  | [] => []
  | seg :: rest =>
      segmentControls idx seg (stateAt states idx)
      ++ mapControls states (S idx) rest
  end.

Definition renderControls (diffSegments : list DiffSegment)
    (states : States) : list (nat * string) :=
  mapControls states 0 diffSegments.

(** Concatenation of the pieces in order. *)
Definition joinTexts (texts : list string) : string :=
  foldr String.append "" texts.

(** The reconstruction table, written from the specification's words:
    [TableText seg st t] when the table prescribes [t] for segment [seg]
    under decision [st]. *)
Inductive TableText (seg : DiffSegment) : option string → string → Prop :=
  | table_equal st :
      op seg = "equal" → TableText seg st (originalSpan seg)
  | table_delete_accepted :
      op seg = "delete" → TableText seg (Some "accepted") ""
  | table_delete_pending :
      op seg = "delete" → TableText seg (Some "pending") (originalSpan seg)
  | table_delete_rejected :
      op seg = "delete" → TableText seg (Some "rejected") (originalSpan seg)
  | table_replace_accepted :
      op seg = "replace" → TableText seg (Some "accepted") (suggestedSpan seg)
  | table_replace_otherwise st :
      op seg = "replace" → st ≠ Some "accepted" →
      TableText seg st (originalSpan seg)
  | table_insert_accepted :
      op seg = "insert" → TableText seg (Some "accepted") (suggestedSpan seg)
  | table_insert_otherwise st :
      op seg = "insert" → st ≠ Some "accepted" → TableText seg st ""
  | table_unrecognized st :
      op seg ≠ "equal" → op seg ≠ "delete" → op seg ≠ "replace" →
      op seg ≠ "insert" → TableText seg st (originalSpan seg).

(** [TableTexts states idx segs texts]: [texts] lists, segment by
    segment, a text that the table prescribes; [idx] is the index of the
    first segment of [segs] in the decision array. *)
Inductive TableTexts (states : States) :
    nat → list DiffSegment → list string → Prop :=
  | table_nil idx : TableTexts states idx [] []
  | table_cons idx seg segs t texts :
      TableText seg (stateAt states idx) t →
      TableTexts states (S idx) segs texts →
      TableTexts states idx (seg :: segs) (t :: texts).

End DiffInline.

(** ** handleHighlightSection and the highlight cache *)

Module Highlight.
Import Js.

(** [ToInt32]: the operands of [^] wrap to signed 32 bits. *)
Definition toInt32 (z : Z) : Z := ((z + 2 ^ 31) mod 2 ^ 32 - 2 ^ 31)%Z.

(** [h >>> 0] *)
Definition toUint32 (z : Z) : Z := (z mod 2 ^ 32)%Z.

(** [for (...) h = (h * 33) ^ str.charCodeAt(i)] *)
Fixpoint hashLoop (str : string) (h : Z) : Z :=
  match str with
  | EmptyString => h
  | String c rest =>
      hashLoop rest (Z.lxor (toInt32 (h * 33)) (Z.of_N (charCode c)))
  end.

Definition digit36 (d : Z) : ascii :=
  if (d <? 10)%Z then ascii_of_N (Z.to_N (48 + d))
  else ascii_of_N (Z.to_N (97 + (d - 10))).

(** [Number.prototype.toString(36)] on a non-negative integer, most
    significant digit first.  Seven digits cover every value below
    [36 ^ 7], hence every unsigned 32-bit one. *)
Fixpoint toString36From (fuel : nat) (n : Z) (acc : string) : string :=
  match fuel with
  | O => acc
  | S fuel' =>
      let acc' := String (digit36 (n mod 36)) acc in
      if (n / 36 =? 0)%Z then acc' else toString36From fuel' (n / 36) acc'
  end.

Definition toString36 (n : Z) : string := toString36From 7 n "".

Definition hashKey (str : string) : string :=
  toString36 (toUint32 (hashLoop str 5381)).

(** A value of [highlightCacheRef.current]: [{ blobUrl, text }]. *)
Record CacheEntry := {
  blobUrl : string;
  text : string
}.

(** The component state that [handleHighlightSection] reads and writes,
    with the environment it talks to: the POSTs to [/cmc/highlight]
    issued so far ([posted], oldest first), those not yet answered
    ([inflight], request number to the [sectionText] its closure holds),
    the [setTimeout] callbacks not yet run and the lines written by
    [console.error]. *)
Record App := {
  highlightCache : gmap string CacheEntry;
  pdfBlobUrl : string;
  isHighlighting : bool;
  inflight : gmap nat string;
  posted : list string;
  timers : nat;
  consoleErrors : nat
}.

Definition initialApp : App := {|
  highlightCache := ∅;
  pdfBlobUrl := "/cmc.pdf";
  isHighlighting := false;
  inflight := ∅;
  posted := [];
  timers := 0;
  consoleErrors := 0
|}.

(** How far a call gets before it first yields: it has returned, or it
    awaits the answer to the POST it issued. *)
Inductive CallResult :=
  | Returned
  | Awaiting (req : nat).

(** Settlement of the promise that the async function returns. *)
Inductive Settled :=
  | Fulfilled
  | Rejected.

(** What [await axios.post(...)] and [URL.createObjectURL] deliver: the
    object URL of the received blob, or a rejected request. *)
Inductive Response :=
  | Blob (objectUrl : string)
  | NetworkError.

(** [!sectionText || sectionText.length < 20] *)
Definition belowThreshold (sectionText : option string) : bool :=
  falsy sectionText || (String.length (orEmpty sectionText) <? 20)%nat.

(** [handleHighlightSection] up to its first [await]. *)
Definition handleHighlightSection (sectionText : option string)
    (app : App) : App * CallResult :=
  if belowThreshold sectionText then (app, Returned)
  else
    let key := hashKey (orEmpty sectionText) in
    match highlightCache app !! key with
    | Some cached =>
        ({| highlightCache := highlightCache app;
            pdfBlobUrl := blobUrl cached;
            isHighlighting := false;
            inflight := inflight app;
            posted := posted app;
            timers := timers app;
            consoleErrors := consoleErrors app |}, Returned)
    | None =>
        let req := List.length (posted app) in
        ({| highlightCache := highlightCache app;
            pdfBlobUrl := pdfBlobUrl app;
            isHighlighting := true;
            inflight := <[req := orEmpty sectionText]> (inflight app);
            posted := posted app ++ [orEmpty sectionText];
            timers := timers app;
            consoleErrors := consoleErrors app |}, Awaiting req)
    end.

(** The rest of the [try] / [catch] / [finally] once request [req] is
    answered.  [None] when no such request is awaited. *)
Definition resumeHighlight (req : nat) (resp : Response)
    (app : App) : option (App * Settled) :=
  match inflight app !! req with
  | None => None
  | Some sectionText =>
      let key := hashKey sectionText in
      Some
        (match resp with
         | Blob objectUrl =>
             {| highlightCache :=
                  <[key := {| blobUrl := objectUrl; text := sectionText |}]>
                    (highlightCache app);
                pdfBlobUrl := objectUrl;
                isHighlighting := isHighlighting app;
                inflight := delete req (inflight app);
                posted := posted app;
                timers := S (timers app);
                consoleErrors := consoleErrors app |}
         | NetworkError =>
             {| highlightCache := highlightCache app;
                pdfBlobUrl := pdfBlobUrl app;
                isHighlighting := isHighlighting app;
                inflight := delete req (inflight app);
                posted := posted app;
                timers := S (timers app);
                consoleErrors := S (consoleErrors app) |}
         end, Fulfilled)
  end.

(** A scheduled [() => setIsHighlighting(false)] runs. *)
Definition timerFires (app : App) : option App :=
  match timers app with
  | O => None
  | S n =>
      Some {| highlightCache := highlightCache app;
              pdfBlobUrl := pdfBlobUrl app;
              isHighlighting := false;
              inflight := inflight app;
              posted := posted app;
              timers := n;
              consoleErrors := consoleErrors app |}
  end.

(** Interleavings of the single-threaded event loop. *)
Inductive Event :=
  | Call (sectionText : option string)
  | Respond (req : nat) (resp : Response)
  | Timer.

Definition step (app : App) (e : Event) : option App :=
  match e with
  | Call sectionText => Some (fst (handleHighlightSection sectionText app))
  | Respond req resp => fst <$> resumeHighlight req resp app
  | Timer => timerFires app
  end.

Fixpoint run (app : App) (events : list Event) : option App :=
  match events with
  | [] => Some app
  | e :: rest => step app e ≫= fun app' => run app' rest
  end.

End Highlight.


(** ** Predicates on text *)

Module Text.
Import Js.

(** Every character of [s] satisfies [P]. *)
Fixpoint allChars (P : ascii → bool) (s : string) : bool :=
  match s with
  | EmptyString => true
  | String c rest => P c && allChars P rest
  end.

Definition noWhiteSpace (s : string) : bool :=
  allChars (fun c => negb (isWhiteSpace c)) s.

(** No plain space occurs in [s]. *)
Definition noSpace (s : string) : bool :=
  allChars (fun c => negb (isSpaceChar c)) s.

(** The pieces put together again, one space between neighbours
    ([pieces.join(" ")]). *)
Fixpoint joinSpaces (pieces : list string) : string :=
  match pieces with
  | [] => ""
  | w :: rest =>
      match rest with
      | [] => w
      | _ => w +:+ String " " (joinSpaces rest)
      end
  end.

(** Neither [<] nor [>] occurs in [s]. *)
Definition noAngle (s : string) : bool :=
  allChars (fun c => negb (Ascii.eqb c "<" || Ascii.eqb c ">")) s.

(** None of [&], [<], [>] occurs in [s]. *)
Definition noMarkup (s : string) : bool :=
  allChars (fun c => negb (Ascii.eqb c "&" || Ascii.eqb c "<" || Ascii.eqb c ">")) s.

End Text.

(** ** CmcViewer: the page auto-detection effect *)

Module CmcViewer.
Import Js Locator.

(** [matchedPage], [matchedScore] and [hasJumpedRef.current]. *)
Record Viewer := {
  matchedPage : option Z;
  matchedScore : nat;
  hasJumped : bool
}.

Definition initialViewer : Viewer :=
  {| matchedPage := None; matchedScore := 0; hasJumped := false |}.

(** Truthiness of [bestPage]: [null] and [0] are falsy. *)
Definition truthyPage (page : option Z) : bool :=
  match page with
  | Some n => negb (n =? 0)%Z
  | None => false
  end.

(** [for (const p of document.pages)] with [normalize(p.text || "")]
    called on every page. *)
Fixpoint detectLoop (tokens : list string) (ps : list PageRecord)
    (best : option Z * nat) : Completion (option Z * nat) :=
  match ps with
  | [] => Normal best
  | p :: rest =>
      match normalize (JsString (orEmpty (text p))) with
      | Throw e => Throw e
      | Normal pageNorm =>
          let score := countContained tokens pageNorm in
          detectLoop tokens rest
            (if bool_decide (snd best < score)
             then (Some (page_number p), score) else best)
      end
  end.

(** The effect "auto-detect page by fuzzy matching": the new component
    state and the argument of [onPageChange] when the auto-jump fires.
    [jumped] is [hasJumpedRef.current], reset before the search. *)
Definition autoDetect (document : option DocumentData)
    (cmcContext : option string) (v : Viewer) : Completion (Viewer * option Z) :=
  match document ≫= pages with
  | None | Some [] => Normal (v, None)
  | Some ps =>
      if falsy cmcContext then Normal (v, None)
      else
        match normalize (JsString (orEmpty cmcContext)) with
        | Throw e => Throw e
        | Normal contextNorm =>
            let jumped := false in
            let tokens := tokenize contextNorm in
            match detectLoop tokens ps (None, 0) with
            | Throw e => Throw e
            | Normal (bestPage, bestScore) =>
                if truthyPage bestPage && (5 <=? bestScore) && negb jumped
                then Normal ({| matchedPage := bestPage;
                                matchedScore := bestScore;
                                hasJumped := true |}, bestPage)
                else Normal ({| matchedPage := bestPage;
                                matchedScore := bestScore;
                                hasJumped := jumped |}, None)
            end
        end
  end.

(** [matchedPage && matchedScore >= 3]: the "Go to Page" button shows. *)
Definition jumpButtonShown (v : Viewer) : bool :=
  truthyPage (matchedPage v) && (3 <=? matchedScore v).

End CmcViewer.

(** ** App: comment list, batch navigation, cache clean-up *)

Module Review.
Import Js Locator.

(** *** The comment list *)

Record Composer := {
  comment : string;
  comments : list string
}.

Definition initialComposer : Composer := {| comment := ""; comments := [] |}.

(** A comment that is not blank and has no white space at either end. *)
Definition wellFormed (c : string) : Prop := c ≠ "" ∧ trim c = c.

(** [handleAddComment] *)
Definition handleAddComment (c : Composer) : Composer :=
  if String.eqb (trim (comment c)) "" then c
  else {| comment := ""; comments := comments c ++ [trim (comment c)] |}.

(** What [handleClearComments] does to the composer. *)
Definition handleClearComments (c : Composer) : Composer :=
  {| comment := ""; comments := [] |}.

(** [handleProcessBatch] up to its request: the [comments] it posts to
    [/cmc/answer-batch], or [None] when it returns at once. *)
Definition handleProcessBatch (c : Composer) : option (list string) :=
  match comments c with
  | [] => None
  | cs => Some cs
  end.

Inductive ComposerEvent :=
  | ChangeComment (value : string)
  | AddComment
  | ClearComments.

Definition composerStep (c : Composer) (e : ComposerEvent) : Composer :=
  match e with
  | ChangeComment value => {| comment := value; comments := comments c |}
  | AddComment => handleAddComment c
  | ClearComments => handleClearComments c
  end.

Definition composerRun (events : list ComposerEvent) : Composer :=
  fold_left composerStep events initialComposer.

(** *** Batch navigation *)

Record LlmResult := { cmc_context_used : option string }.
Record BatchResult := { llm_result : option LlmResult }.

(** What a handler does, in program order. *)
Inductive NavEffect :=
  | SetCurrentResultIndex (index : nat)
  | HighlightSection (sectionText : string)
  | SetCurrentPdfPage (page : Z).

(** [currentResultIndex] in a comparison or a sum: [null] counts as 0. *)
Definition toNumber (currentResultIndex : option nat) : Z :=
  match currentResultIndex with
  | Some n => Z.of_nat n
  | None => 0%Z
  end.

(** The block both handlers run on [batchResults[index]]. *)
Definition showResult (documentData : option DocumentData)
    (batchResults : list BatchResult) (index : nat) : list NavEffect :=
  match batchResults !! index ≫= llm_result with
  | None => []
  | Some llm =>
      let sectionText := orEmpty (cmc_context_used llm) in
      if 20 <? String.length sectionText then
        HighlightSection sectionText ::
        match detectMatchedPage (Some sectionText) documentData with
        | Some page => if (page =? 0)%Z then [] else [SetCurrentPdfPage page]
        | None => []
        end
      else []
  end.

Definition handleNextResult (documentData : option DocumentData)
    (batchResults : list BatchResult)
    (currentResultIndex : option nat) : list NavEffect :=
  if (toNumber currentResultIndex <? Z.of_nat (length batchResults) - 1)%Z then
    let nextIndex := Z.to_nat (toNumber currentResultIndex + 1) in
    SetCurrentResultIndex nextIndex
    :: showResult documentData batchResults nextIndex
  else [].

Definition handlePrevResult (documentData : option DocumentData)
    (batchResults : list BatchResult)
    (currentResultIndex : option nat) : list NavEffect :=
  if (0 <? toNumber currentResultIndex)%Z then
    let prevIndex := Z.to_nat (toNumber currentResultIndex - 1) in
    SetCurrentResultIndex prevIndex
    :: showResult documentData batchResults prevIndex
  else [].

(** [currentResultIndex] after a handler has run. *)
Definition indexAfter (effects : list NavEffect)
    (currentResultIndex : option nat) : option nat :=
  fold_left (fun idx e => match e with
                          | SetCurrentResultIndex i => Some i
                          | _ => idx
                          end) effects currentResultIndex.

(** [hasPrev] and [hasNext] of CommentPanel, which enable the buttons. *)
Definition hasPrev (batchResults : list BatchResult)
    (currentResultIndex : option nat) : bool :=
  (0 <? length batchResults) && (0 <? toNumber currentResultIndex)%Z.

Definition hasNext (batchResults : list BatchResult)
    (currentResultIndex : option nat) : bool :=
  (0 <? length batchResults)
  && (toNumber currentResultIndex <? Z.of_nat (length batchResults) - 1)%Z.

(** *** The [beforeunload] clean-up *)

(** [onUnload]: the object URLs handed to [URL.revokeObjectURL] (the
    order in which the Map yields them is not tracked) and the state
    after [cache.clear()]. *)
Definition onUnload (app : Highlight.App) : list string * Highlight.App :=
  ((Highlight.blobUrl ∘ snd) <$> map_to_list (Highlight.highlightCache app),
   {| Highlight.highlightCache := ∅;
      Highlight.pdfBlobUrl := Highlight.pdfBlobUrl app;
      Highlight.isHighlighting := Highlight.isHighlighting app;
      Highlight.inflight := Highlight.inflight app;
      Highlight.posted := Highlight.posted app;
      Highlight.timers := Highlight.timers app;
      Highlight.consoleErrors := Highlight.consoleErrors app |}).

End Review.

(** ** CommentPanel: diff blocks, page lookup and anchors *)

Module CommentPanel.
Import Js Locator.

(** [s.replace(/c/g, rep)] for a single character [c]. *)
Fixpoint replaceChar (c : ascii) (rep : string) (s : string) : string :=
  match s with
  | EmptyString => EmptyString
  | String a rest =>
      if Ascii.eqb a c then rep +:+ replaceChar c rep rest
      else String a (replaceChar c rep rest)
  end.

(** [escapeHtml] *)
Definition escapeHtml (s : option string) : string :=
  replaceChar ">" "&gt;"
    (replaceChar "<" "&lt;" (replaceChar "&" "&amp;" (orEmpty s))).

Record Token := { status : string; html : string }.
Record Block := { type : string; old : list Token; new : list Token }.

(** The conversion of one legacy segment into a side-by-side block. *)
Definition toBlock (seg : DiffInline.DiffSegment) : Block :=
  if String.eqb (DiffInline.op seg) "replace" then
    {| type := "replace";
       old := [ {| status := "delete"; html := escapeHtml (DiffInline.orig seg) |} ];
       new := [ {| status := "insert"; html := escapeHtml (DiffInline.suggested seg) |} ] |}
  else if String.eqb (DiffInline.op seg) "delete" then
    {| type := "delete";
       old := [ {| status := "delete"; html := escapeHtml (DiffInline.orig seg) |} ];
       new := [] |}
  else if String.eqb (DiffInline.op seg) "insert" then
    {| type := "insert";
       old := [];
       new := [ {| status := "insert"; html := escapeHtml (DiffInline.suggested seg) |} ] |}
  else
    {| type := "equal";
       old := [ {| status := "equal"; html := escapeHtml (DiffInline.orig seg) |} ];
       new := [ {| status := "equal"; html := escapeHtml (DiffInline.orig seg) |} ] |}.

Definition toBlocks (diff_segments : list DiffInline.DiffSegment) : list Block :=
  toBlock <$> diff_segments.

(** [s.substring(0, n)] and [s.substring(n)] for [n >= 0]. *)
Fixpoint substringTo (n : nat) (s : string) : string :=
  match n, s with
  | S k, String c rest => String c (substringTo k rest)
  | _, _ => EmptyString
  end.

Fixpoint substringFrom (n : nat) (s : string) : string :=
  match n, s with
  | S k, String _ rest => substringFrom k rest
  | _, _ => s
  end.

(** [(x || "").replace(/\s+/g, " ").toLowerCase()] *)
Definition looseText (x : option string) : string :=
  toLowerCase (collapseWhiteSpace false (orEmpty x)).

(** [pages.find(p => ...)?.page_number] *)
Fixpoint findPage (chunk : string) (ps : list PageRecord) : option Z :=
  match ps with
  | [] => None
  | p :: rest =>
      if includes chunk (looseText (text p)) then Some (page_number p)
      else findPage chunk rest
  end.

(** [!page] *)
Definition falsyPage (page : option Z) : bool :=
  match page with
  | Some n => (n =? 0)%Z
  | None => true
  end.

(** Step 1 of the approve handler, "Calculate Page": the exact search,
    the fallback when it gave nothing, and the default 1. *)
Definition targetPage (documentData : option DocumentData)
    (affectedSection : option string) : Z :=
  match documentData ≫= pages with
  | None => 1%Z
  | Some ps =>
      let target := trim (looseText affectedSection) in
      let page := findPage (substringTo 50 target) ps in
      let page :=
        if falsyPage page then
          let chunk := substringTo 50 target in
          findPage chunk ps
        else page in
      if falsyPage page then 1%Z else default 1%Z page
  end.

Record ReplaceRequest := {
  page : Z;
  start_anchor : string;
  end_anchor : string;
  replacement_text : string
}.

Record SectionLlmData := { suggested_cmc_rewrite : option string }.

Inductive ApproveOutcome :=
  | NotConfirmed
  | TooShort
  | Failed
  | Posted (request : ReplaceRequest).

(** The "Approve Changes" handler up to its POST to
    [/pdf/replace-paragraph]; [confirmed] is the answer to
    [window.confirm].  A missing [sectionLlmData] makes the request body
    throw, which the handler catches. *)
Definition approveChanges (confirmed : bool)
    (documentData : option DocumentData) (affectedSection : option string)
    (sectionLlmData : option SectionLlmData) : ApproveOutcome :=
  if negb confirmed then NotConfirmed
  else
    let targetPage := targetPage documentData affectedSection in
    let original := trim (orEmpty affectedSection) in
    if String.eqb original "" || (String.length original <? 10) then TooShort
    else
      let start_anchor :=
        substringTo (Nat.min 100 (String.length original)) original in
      let end_anchor := substringFrom (String.length original - 100) original in
      match sectionLlmData with
      | None => Failed
      | Some data =>
          Posted {| page := targetPage;
                    start_anchor := start_anchor;
                    end_anchor := end_anchor;
                    replacement_text := orEmpty (suggested_cmc_rewrite data) |}
      end.

End CommentPanel.

(** ** DiffInline: what the render shows *)

Module DiffRender.
Import Js DiffInline.

Inductive SpanStyle :=
  | Plain
  | Struck
  | Added.

(** The text spans that the render returns for one segment, without the
    buttons: plain ones, the red struck-through one, the green one. *)
Definition renderSegment (seg : DiffSegment)
    (st : option string) : list (SpanStyle * string) :=
  if String.eqb (op seg) "equal" then [(Plain, originalSpan seg)]
  else if String.eqb (op seg) "delete" then
    if isState st "accepted" then []
    else if isState st "rejected" then [(Plain, originalSpan seg)]
    else [(Struck, originalSpan seg)]
  else if String.eqb (op seg) "replace" then
    if isState st "accepted" then [(Plain, suggestedSpan seg)]
    else if isState st "rejected" then [(Plain, originalSpan seg)]
    else [(Struck, originalSpan seg); (Added, suggestedSpan seg)]
  else if String.eqb (op seg) "insert" then
    if isState st "accepted" then [(Plain, suggestedSpan seg)]
    else if isState st "rejected" then []
    else [(Added, suggestedSpan seg)]
  else [(Plain, originalSpan seg)].

Fixpoint renderFrom (states : States) (idx : nat)
    (segs : list DiffSegment) : list (SpanStyle * string) :=
  match segs with
  | [] => []
  | seg :: rest =>
      renderSegment seg (stateAt states idx) ++ renderFrom states (S idx) rest
  end.

Definition render (diffSegments : list DiffSegment)
    (states : States) : list (SpanStyle * string) :=
  renderFrom states 0 diffSegments.

(** The text on screen: the spans' texts in order. *)
Definition shownText (spans : list (SpanStyle * string)) : string :=
  joinTexts (snd <$> spans).

End DiffRender.

(** ** Reading a cache key back *)

Module Base36.
Import Js.

(** Value of a digit of [toString(36)]. *)
Definition digitValue (c : ascii) : Z :=
  let n := Z.of_N (charCode c) in
  if (n <? 58)%Z then (n - 48)%Z else (n - 87)%Z.

Definition isDigit36 (c : ascii) : bool :=
  let n := charCode c in
  ((48 <=? n) && (n <=? 57) || (97 <=? n) && (n <=? 122))%N.

(** [parseInt(s, 36)] on a string of digits, most significant first. *)
Fixpoint parse36From (s : string) (acc : Z) : Z :=
  match s with
  | EmptyString => acc
  | String c rest => parse36From rest (acc * 36 + digitValue c)
  end.

Definition parse36 (s : string) : Z := parse36From s 0.

End Base36.

(** ** What holds of the highlight state along every interleaving *)

Module HighlightInv.
Import Highlight.

(** Every entry sits under the key of its own text, which passed the
    length gate. *)
Definition cacheConsistent (app : App) : Prop :=
  ∀ key entry,
    highlightCache app !! key = Some entry →
    key = hashKey (text entry) ∧ 20 ≤ String.length (text entry).

(** The requests awaited are posts that were made, with the text that
    was posted. *)
Definition inflightConsistent (app : App) : Prop :=
  ∀ req s,
    inflight app !! req = Some s →
    posted app !! req = Some s ∧ 20 ≤ String.length s.

(** While the indicator is on, a request is awaited or a timer is set
    that will switch it off. *)
Definition indicatorBacked (app : App) : Prop :=
  isHighlighting app = true → inflight app ≠ ∅ ∨ 0 < timers app.

End HighlightInv.
(** * Properties *)

(** ** The page locator *)

Module LocatorProps.
Import Js Locator.

Section Loop.
Variable tokens : list string.

(** The loop either keeps the best it started from, and then no page
    scored above it, or it ends on the first page whose score beats
    the start and every page before it, and is not beaten later. *)
Lemma locateLoop_first_best ps bp b :
  (locateLoop tokens ps (bp, b) = (bp, b) ∧ Forall (fun q => pageScore tokens q ≤ b) ps)
  ∨ (∃ pre p post,
       ps = pre ++ p :: post
       ∧ locateLoop tokens ps (bp, b) = (Some (page_number p), pageScore tokens p)
       ∧ b < pageScore tokens p
       ∧ Forall (fun q => pageScore tokens q < pageScore tokens p) pre
       ∧ Forall (fun q => pageScore tokens q ≤ pageScore tokens p) post).
Proof.
  revert bp b. induction ps as [|p0 ps' IH]; intros bp b.
  - left. split; [reflexivity | constructor].
  - unfold locateLoop in *. cbn [fold_left].
    unfold locateStep at 2 4. cbn [snd].
    case_bool_decide as Hlt.
    + destruct (IH (Some (page_number p0)) (pageScore tokens p0))
        as [[Hsame Hle] | (pre & p & post & -> & Hres & Hb & Hpre & Hpost)].
      * right. exists [], p0, ps'. rewrite Hsame. auto.
      * right. exists (p0 :: pre), p, post. rewrite Hres.
        repeat split; [lia | constructor; [exact Hb | exact Hpre] | exact Hpost].
    + destruct (IH bp b)
        as [[Hsame Hle] | (pre & p & post & -> & Hres & Hb & Hpre & Hpost)].
      * left. rewrite Hsame. split; [reflexivity | constructor; [lia | exact Hle]].
      * right. exists (p0 :: pre), p, post. rewrite Hres.
        repeat split; [exact Hb | constructor; [lia | exact Hpre] | exact Hpost].
Qed.
End Loop.

Lemma countContained_nil pageNorm : countContained [] pageNorm = 0.
Proof. reflexivity. Qed.

Lemma excerptTokens_falsy sectionText :
  falsy sectionText = true → excerptTokens sectionText = [].
Proof.
  destruct sectionText as [s|]; cbn; [|reflexivity].
  intros Hs. apply String.eqb_eq in Hs. subst s. reflexivity.
Qed.

(** The selection: [detectMatchedPage] answers the page number of the
    first page, in index order, whose score is positive, above the score
    of every earlier page and not below that of any later page; it
    answers [null] exactly when every page scores 0. *)
Lemma detectMatchedPage_selects
    (sectionText : option string) (documentData : option DocumentData) :
  let sc := pageScore (excerptTokens sectionText) in
  let ps := pagesOf documentData in
  match detectMatchedPage sectionText documentData with
  | Some n =>
      ∃ pre p post,
        ps = pre ++ p :: post
        ∧ n = page_number p
        ∧ 0 < sc p
        ∧ Forall (fun q => sc q < sc p) pre
        ∧ Forall (fun q => sc q ≤ sc p) post
  | None => Forall (fun q => sc q = 0) ps
  end.
Proof.
  intros sc ps. subst sc ps. unfold detectMatchedPage, pagesOf.
  destruct (documentData ≫= pages) as [ps|]; cbn [default]; [|constructor].
  destruct (falsy sectionText) eqn:Hfalsy.
  { rewrite (excerptTokens_falsy _ Hfalsy).
    apply Forall_forall. intros q _. reflexivity. }
  fold (excerptTokens sectionText).
  destruct (excerptTokens sectionText) as [|w ws] eqn:Htok.
  { apply Forall_forall. intros q _. reflexivity. }
  destruct (locateLoop_first_best (w :: ws) ps None 0)
    as [[Hsame Hle] | (pre & p & post & Hps & Hres & Hb & Hpre & Hpost)].
  - rewrite Hsame. cbn [fst].
    eapply Forall_impl; [exact Hle|]. cbn. intros q Hq. lia.
  - rewrite Hres. cbn [fst]. exists pre, p, post. auto.
Qed.

(** The locator example of the specification. *)
Example detectMatchedPage_example :
  detectMatchedPage (Some "bananas crocodile diagram")
    (Some {| num_pages := 2;
             pages := Some [ {| page_number := 1; text := Some "alphabet bananas" |};
                             {| page_number := 2; text := Some "alphabet crocodile diagram" |} ] |})
  = Some 2%Z.
Proof. vm_compute. reflexivity. Qed.

(** Two pages with the same positive score: the earlier one is kept. *)
Example detectMatchedPage_tie :
  detectMatchedPage (Some "bananas crocodile")
    (Some {| num_pages := 2;
             pages := Some [ {| page_number := 4; text := Some "Bananas  and CROCODILE" |};
                             {| page_number := 7; text := Some "crocodile bananas" |} ] |})
  = Some 4%Z.
Proof. vm_compute. reflexivity. Qed.

Example detectMatchedPage_short_tokens :
  detectMatchedPage (Some "a an the")
    (Some {| num_pages := 1;
             pages := Some [ {| page_number := 1; text := Some "a an the" |} ] |})
  = None.
Proof. vm_compute. reflexivity. Qed.

End LocatorProps.

(** ** normalize *)

Module NormalizeProps.
Import Js Locator.

(** Facts on single characters, by enumeration of the 256 code units. *)
Ltac by_char c := destruct c as [[] [] [] [] [] [] [] []]; vm_compute; congruence.

Lemma isWhiteSpace_lowerChar c : isWhiteSpace (lowerChar c) = isWhiteSpace c.
Proof. by_char c. Qed.

Lemma lowerChar_idem c : lowerChar (lowerChar c) = lowerChar c.
Proof. by_char c. Qed.

Lemma isSpaceChar_eq c : isSpaceChar c = true → c = " "%char.
Proof. by_char c. Qed.

(** *** Each stage leaves the output of the chain unchanged *)

Lemma singleSpaced_collapse s : ∀ b, singleSpaced b (collapseWhiteSpace b s) = true.
Proof.
  induction s as [|c s IH]; intros b; cbn; [reflexivity|].
  destruct (isWhiteSpace c) eqn:Hc.
  - destruct b; [apply IH|]. cbn. by rewrite IH.
  - cbn. rewrite Hc. apply IH.
Qed.

Lemma singleSpaced_toLowerCase s : ∀ b,
  singleSpaced b s = true → singleSpaced b (toLowerCase s) = true.
Proof.
  induction s as [|c s IH]; intros b; cbn; [done|].
  rewrite isWhiteSpace_lowerChar. destruct (isWhiteSpace c) eqn:Hc; [|apply IH].
  intros [[Hsp Hb]%andb_prop Hs]%andb_prop.
  rewrite (isSpaceChar_eq _ Hsp), Hb, (IH _ Hs). reflexivity.
Qed.

Lemma singleSpaced_trimStart s : ∀ b,
  singleSpaced b s = true → singleSpaced false (trimStart s) = true.
Proof.
  induction s as [|c s IH]; intros b; cbn; [done|].
  destruct (isWhiteSpace c) eqn:Hc.
  - intros [_ Hs]%andb_prop. by apply (IH true).
  - cbn. by rewrite Hc.
Qed.

Lemma singleSpaced_trimEnd s : ∀ b,
  singleSpaced b s = true → singleSpaced b (trimEnd s) = true.
Proof.
  induction s as [|c s IH]; intros b; cbn [trimEnd]; [done|].
  cbn [singleSpaced]. intros Hs.
  destruct (trimEnd s) as [|k kept] eqn:Hkept.
  - destruct (isWhiteSpace c) eqn:Hc; [reflexivity|]. cbn. by rewrite Hc.
  - cbn [singleSpaced]. destruct (isWhiteSpace c) eqn:Hc.
    + apply andb_prop in Hs as [Hhead Hs]. rewrite Hhead. by apply (IH true).
    + by apply (IH false).
Qed.

Lemma collapseWhiteSpace_fixed s : ∀ b,
  singleSpaced b s = true → collapseWhiteSpace b s = s.
Proof.
  induction s as [|c s IH]; intros b; cbn; [done|].
  destruct (isWhiteSpace c) eqn:Hc.
  - intros [[Hsp Hb]%andb_prop Hs]%andb_prop.
    destruct b; [discriminate|].
    by rewrite (IH _ Hs), (isSpaceChar_eq _ Hsp).
  - intros Hs. by rewrite (IH _ Hs).
Qed.

Lemma lineBreakLength_singleSpaced s : ∀ b,
  singleSpaced b s = true → lineBreakLength s = None.
Proof.
  induction s as [|c s IH]; intros b; cbn; [done|].
  destruct (isWhiteSpace c) eqn:Hc; [|done].
  intros [[Hsp _]%andb_prop Hs]%andb_prop.
  by rewrite (IH _ Hs), (isSpaceChar_eq _ Hsp).
Qed.

Lemma singleSpaced_tail c s b :
  singleSpaced b (String c s) = true → ∃ b', singleSpaced b' s = true.
Proof.
  cbn. destruct (isWhiteSpace c); [intros [_ Hs]%andb_prop|]; eauto.
Qed.

Lemma replaceHyphenBreaks_fixed s : ∀ b,
  singleSpaced b s = true → replaceHyphenBreaks 0 s = s.
Proof.
  induction s as [|c s IH]; intros b Hs; [reflexivity|].
  destruct (singleSpaced_tail _ _ _ Hs) as [b' Hs'].
  cbn. rewrite (lineBreakLength_singleSpaced _ _ Hs'), (IH _ Hs').
  by destruct (isHyphen c).
Qed.

Lemma toLowerCase_idem s : toLowerCase (toLowerCase s) = toLowerCase s.
Proof.
  induction s as [|c s IH]; cbn; [reflexivity|]. by rewrite lowerChar_idem, IH.
Qed.

Lemma toLowerCase_trimStart s : toLowerCase (trimStart s) = trimStart (toLowerCase s).
Proof.
  induction s as [|c s IH]; cbn; [reflexivity|].
  rewrite isWhiteSpace_lowerChar. by destruct (isWhiteSpace c).
Qed.

Lemma toLowerCase_trimEnd s : toLowerCase (trimEnd s) = trimEnd (toLowerCase s).
Proof.
  induction s as [|c s IH]; cbn [trimEnd toLowerCase]; [reflexivity|].
  rewrite <- IH, isWhiteSpace_lowerChar.
  destruct (trimEnd s) as [|k kept]; cbn [toLowerCase]; [|reflexivity].
  by destruct (isWhiteSpace c).
Qed.

Lemma startsClean_trimStart s : startsClean (trimStart s) = true.
Proof.
  induction s as [|c s IH]; cbn; [reflexivity|].
  destruct (isWhiteSpace c) eqn:Hc; [exact IH|]. cbn. by rewrite Hc.
Qed.

Lemma startsClean_trimEnd s : startsClean s = true → startsClean (trimEnd s) = true.
Proof.
  destruct s as [|c s]; cbn [trimEnd startsClean]; [done|].
  intros Hc. destruct (trimEnd s); [|exact Hc].
  apply negb_true_iff in Hc. rewrite Hc. cbn. by rewrite Hc.
Qed.

Lemma trimStart_fixed s : startsClean s = true → trimStart s = s.
Proof.
  destruct s as [|c s]; cbn; [done|]. intros Hc%negb_true_iff. by rewrite Hc.
Qed.

Lemma trimEnd_idem s : trimEnd (trimEnd s) = trimEnd s.
Proof.
  induction s as [|c s IH]; cbn [trimEnd]; [reflexivity|].
  destruct (trimEnd s) as [|k kept] eqn:Hkept.
  - destruct (isWhiteSpace c) eqn:Hc; [reflexivity|]. cbn. by rewrite Hc.
  - cbn [trimEnd]. cbn [trimEnd] in IH.
    destruct (trimEnd kept) as [|k' kept'] eqn:Hk'.
    + destruct (isWhiteSpace k); [discriminate|]. by rewrite IH.
    + by rewrite IH.
Qed.

Lemma trim_idem s : trim (trim s) = trim s.
Proof.
  unfold trim.
  rewrite (trimStart_fixed (trimEnd (trimStart s))).
  - apply trimEnd_idem.
  - apply startsClean_trimEnd, startsClean_trimStart.
Qed.

Lemma singleSpaced_normalizeText s : singleSpaced false (normalizeText s) = true.
Proof.
  unfold normalizeText, trim.
  apply singleSpaced_trimEnd, (singleSpaced_trimStart _ false),
    singleSpaced_toLowerCase, singleSpaced_collapse.
Qed.

Lemma toLowerCase_normalizeText s : toLowerCase (normalizeText s) = normalizeText s.
Proof.
  unfold normalizeText, trim.
  by rewrite toLowerCase_trimEnd, toLowerCase_trimStart, toLowerCase_idem.
Qed.

(** Normalised text is a fixed point of the whole chain. *)
Lemma normalizeText_idem s : normalizeText (normalizeText s) = normalizeText s.
Proof.
  pose proof (singleSpaced_normalizeText s) as Hss.
  unfold normalizeText at 1.
  rewrite (replaceHyphenBreaks_fixed _ _ Hss), (collapseWhiteSpace_fixed _ _ Hss),
    toLowerCase_normalizeText.
  unfold normalizeText. apply trim_idem.
Qed.

(** C8, as stated, fails: on [undefined] the method call [text.replace]
    throws, where the claim promises the empty string. *)
Lemma normalize_undefined_throws :
  normalize JsUndefined = Throw TypeError
  ∧ normalize JsUndefined ≠ Normal "".
Proof. split; [reflexivity | discriminate]. Qed.

(** C8, as amended.  On every string [normalize] returns a string, the
    empty one for the empty string; what it returns has no white space
    but single plain spaces between words, none at either end, no
    capital letter, and is left as it is by a second [normalize].  On
    [undefined] it throws. *)
Theorem normalize_total_on_strings (s : string) :
  ∃ r,
    normalize (JsString s) = Normal r
    ∧ singleSpaced false r = true
    ∧ trim r = r
    ∧ toLowerCase r = r
    ∧ normalize (JsString r) = Normal r
    ∧ normalize (JsString "") = Normal ""
    ∧ normalize JsUndefined = Throw TypeError.
Proof.
  exists (normalizeText s). cbn [normalize]. repeat split.
  - apply singleSpaced_normalizeText.
  - unfold normalizeText. apply trim_idem.
  - apply toLowerCase_normalizeText.
  - by rewrite normalizeText_idem.
Qed.

Example normalize_example :
  normalize (JsString ("  Stability  DATA for hyphen-" +:+ String "010" "ated   Words "))
  = Normal "stability data for hyphenated words".
Proof. vm_compute. reflexivity. Qed.

End NormalizeProps.

(** ** DiffInline *)

Module DiffInlineProps.
Import Js DiffInline.

Lemma append_cons c (s t : string) : String c s +:+ t = String c (s +:+ t).
Proof. reflexivity. Qed.

Lemma append_empty_r (s : string) : s +:+ "" = s.
Proof.
  induction s as [|c s IH]; [reflexivity | by rewrite append_cons, IH].
Qed.

Lemma append_assoc (s t u : string) : (s +:+ t) +:+ u = s +:+ (t +:+ u).
Proof.
  induction s as [|c s IH]; [reflexivity | by rewrite !append_cons, IH].
Qed.

(** The loop appends to the accumulator, in order, what [segmentText]
    gives for each segment under the decision at its index. *)
Lemma forEachSegment_join states segs : ∀ idx finalText,
  forEachSegment states idx segs finalText
  = finalText +:+
    joinTexts (imap (fun i seg => segmentText seg (stateAt states (idx + i))) segs).
Proof.
  induction segs as [|seg rest IH]; intros idx finalText.
  - cbn [forEachSegment imap joinTexts foldr]. by rewrite append_empty_r.
  - cbn [forEachSegment imap joinTexts foldr].
    rewrite IH, append_assoc, Nat.add_0_r. unfold joinTexts. do 3 f_equal.
    apply imap_ext. intros i x _. cbn. do 2 f_equal. lia.
Qed.

Lemma isState_eq st name : isState st name = true ↔ st = Some name.
Proof.
  destruct st as [s|]; cbn; [|split; discriminate].
  rewrite String.eqb_eq. split; congruence.
Qed.

Lemma isState_other st name : st ≠ Some name → isState st name = false.
Proof.
  intros Hne. destruct (isState st name) eqn:E; [|reflexivity].
  apply isState_eq in E. contradiction.
Qed.

(** Wherever the table prescribes a text, the [switch] produces it. *)
Lemma segmentText_table seg st t :
  TableText seg st t → segmentText seg st = t.
Proof.
  unfold segmentText.
  destruct 1 as [st Hop | Hop | Hop | Hop | Hop | st Hop Hst | Hop
                 | st Hop Hst | st H1 H2 H3 H4];
    try rewrite Hop; cbn; try reflexivity.
  - by rewrite (isState_other _ _ Hst).
  - by rewrite (isState_other _ _ Hst).
  - apply String.eqb_neq in H1, H2, H3, H4. by rewrite H1, H2, H3, H4.
Qed.

(** The table prescribes a text for every segment but a [delete] whose
    decision is none of the three. *)
Lemma TableText_total seg st :
  (op seg = "delete" →
   st = Some "accepted" ∨ st = Some "pending" ∨ st = Some "rejected") →
  ∃ t, TableText seg st t.
Proof.
  intros Hdel.
  destruct (decide (op seg = "equal")) as [He|He];
    [eexists; by apply table_equal|].
  destruct (decide (op seg = "delete")) as [Hd|Hd].
  { destruct (Hdel Hd) as [ -> | [ -> | -> ] ]; eexists;
      [by apply table_delete_accepted | by apply table_delete_pending
       | by apply table_delete_rejected]. }
  destruct (decide (op seg = "replace")) as [Hr|Hr].
  { destruct (decide (st = Some "accepted")) as [ -> | Hst ]; eexists;
      [by apply table_replace_accepted | by apply table_replace_otherwise]. }
  destruct (decide (op seg = "insert")) as [Hi|Hi].
  { destruct (decide (st = Some "accepted")) as [ -> | Hst ]; eexists;
      [by apply table_insert_accepted | by apply table_insert_otherwise]. }
  eexists. by apply table_unrecognized.
Qed.

Lemma TableTexts_total states segs : ∀ idx,
  (∀ i seg, segs !! i = Some seg → op seg = "delete" →
     stateAt states (idx + i) = Some "accepted"
     ∨ stateAt states (idx + i) = Some "pending"
     ∨ stateAt states (idx + i) = Some "rejected") →
  ∃ texts, TableTexts states idx segs texts.
Proof.
  induction segs as [|seg rest IH]; intros idx Hdel.
  - exists []. constructor.
  - destruct (TableText_total seg (stateAt states idx)) as [t Ht].
    { intros Hd. specialize (Hdel 0 seg eq_refl Hd).
      by rewrite Nat.add_0_r in Hdel. }
    destruct (IH (S idx)) as [texts Htexts].
    { intros i seg' Hi Hd. specialize (Hdel (S i) seg' Hi Hd).
      by replace (S idx + i) with (idx + S i) by lia. }
    exists (t :: texts). by constructor.
Qed.

Lemma forEachSegment_table states idx segs texts :
  TableTexts states idx segs texts →
  ∀ finalText,
    forEachSegment states idx segs finalText = finalText +:+ joinTexts texts.
Proof.
  induction 1 as [idx | idx seg segs t texts Ht _ IH]; intros finalText; cbn.
  - by rewrite append_empty_r.
  - by rewrite IH, append_assoc, (segmentText_table _ _ _ Ht).
Qed.

(** C2.  Whenever [texts] lists, segment by segment and in order, the
    text that the reconstruction table prescribes under the decision
    array (original span for [equal] whatever the decision; nothing for
    an accepted [delete] and the original span for a pending or rejected
    one; suggested span for an accepted [replace] and the original span
    otherwise; suggested span for an accepted [insert] and nothing
    otherwise; original span for any other [op]), [computeFinalText]
    is the concatenation of [texts]. *)
Theorem computeFinalText_follows_table
    (diffSegments : list DiffSegment) (states : States) (texts : list string) :
  TableTexts states 0 diffSegments texts →
  computeFinalText diffSegments states = joinTexts texts.
Proof.
  intros Htable. unfold computeFinalText.
  by rewrite (forEachSegment_table _ _ _ _ Htable).
Qed.

(** The reconstruction example of the specification, through C2. *)
Lemma computeFinalText_follows_table_example :
  let segs := [ {| op := "equal"; orig := Some "A "; suggested := None |};
                {| op := "replace"; orig := Some "B"; suggested := Some "C" |};
                {| op := "insert"; orig := Some ""; suggested := Some " D" |} ] in
  let states := [Some "accepted"; Some "accepted"; Some "rejected"] in
  TableTexts states 0 segs ["A "; "C"; ""]
  ∧ computeFinalText segs states = "A C".
Proof.
  assert (Ht : TableTexts [Some "accepted"; Some "accepted"; Some "rejected"] 0
            [ {| op := "equal"; orig := Some "A "; suggested := None |};
              {| op := "replace"; orig := Some "B"; suggested := Some "C" |};
              {| op := "insert"; orig := Some ""; suggested := Some " D" |} ]
            ["A "; "C"; ""]).
  { constructor; [apply table_equal; reflexivity|].
    constructor; [apply table_replace_accepted; reflexivity|].
    constructor; [|constructor].
    apply table_insert_otherwise; [reflexivity | discriminate]. }
  split; [exact Ht|].
  exact (computeFinalText_follows_table _ _ _ Ht).
Defined.

(** A pending [delete] keeps the original, an accepted one drops it. *)
Example computeFinalText_delete :
  computeFinalText [ {| op := "delete"; orig := Some "X"; suggested := Some "" |} ]
                   [Some "pending"] = "X"
  ∧ computeFinalText [ {| op := "delete"; orig := Some "X"; suggested := Some "" |} ]
                     [Some "accepted"] = "".
Proof. split; reflexivity. Qed.

(** Decision that [initStates] installs at the index of a segment. *)
Lemma stateAt_initStates segs i seg :
  segs !! i = Some seg →
  stateAt (initStates segs) i
  = Some (if String.eqb (op seg) "equal" then "accepted" else "pending").
Proof.
  intros Hi. unfold stateAt, initStates.
  by rewrite list_lookup_fmap, Hi.
Qed.

Lemma segmentText_initial seg :
  (op seg = "insert" → originalSpan seg = "") →
  segmentText seg (Some (if String.eqb (op seg) "equal" then "accepted" else "pending"))
  = originalSpan seg.
Proof.
  intros Hins. unfold segmentText.
  destruct (String.eqb_spec (op seg) "equal") as [|_]; [reflexivity|].
  destruct (String.eqb_spec (op seg) "delete") as [|_]; [reflexivity|].
  destruct (String.eqb_spec (op seg) "replace") as [|_]; [reflexivity|].
  destruct (String.eqb_spec (op seg) "insert") as [Hop|_]; [|reflexivity].
  cbn. symmetry. exact (Hins Hop).
Qed.

(** C10, as amended.  When no [insert] segment carries original text,
    the final text derived under the initial decisions (every [equal]
    segment accepted, every other one pending) is the concatenation of
    the original spans in order; the effect hands it to [onTextChange]
    unless the segment list is empty, in which case it does not call. *)
Theorem initial_final_text_is_original (diffSegments : list DiffSegment) :
  Forall (fun seg => op seg = "insert" → originalSpan seg = "") diffSegments →
  computeFinalText diffSegments (initStates diffSegments)
  = joinTexts (originalSpan <$> diffSegments)
  ∧ finalTextEffect true diffSegments (initStates diffSegments)
    = match diffSegments with
      | [] => None
      | _ => Some (joinTexts (originalSpan <$> diffSegments))
      end.
Proof.
  intros Hins.
  assert (Hfinal : computeFinalText diffSegments (initStates diffSegments)
                   = joinTexts (originalSpan <$> diffSegments)).
  { unfold computeFinalText. rewrite forEachSegment_join.
    change ("" +:+ ?t) with t.
    f_equal. rewrite <- imap_const. apply imap_ext. intros i seg Hi. cbn.
    rewrite (stateAt_initStates _ _ _ Hi). apply segmentText_initial.
    rewrite Forall_forall in Hins. apply Hins.
    apply list_elem_of_lookup. eauto. }
  split; [exact Hfinal|].
  unfold finalTextEffect. destruct diffSegments; [reflexivity|].
  cbn [negb orb length Nat.eqb]. by rewrite Hfinal.
Qed.

Lemma initial_final_text_is_original_example :
  let segs := [ {| op := "equal"; orig := Some "A "; suggested := None |};
                {| op := "delete"; orig := Some "B "; suggested := None |};
                {| op := "replace"; orig := Some "C"; suggested := Some "c" |};
                {| op := "insert"; orig := Some ""; suggested := Some " D" |} ] in
  computeFinalText segs (initStates segs) = "A B C"
  ∧ finalTextEffect true segs (initStates segs) = Some "A B C".
Proof.
  apply (initial_final_text_is_original
           [ {| op := "equal"; orig := Some "A "; suggested := None |};
             {| op := "delete"; orig := Some "B "; suggested := None |};
             {| op := "replace"; orig := Some "C"; suggested := Some "c" |};
             {| op := "insert"; orig := Some ""; suggested := Some " D" |} ]).
  repeat constructor; cbn; discriminate.
Defined.

(** C10, as stated, fails: an [insert] segment that carries original
    text contributes nothing while pending, so that text is missing
    from the initial final text. *)
Lemma initial_final_text_drops_insert_original :
  let segs := [ {| op := "insert"; orig := Some "X"; suggested := Some "Y" |} ] in
  computeFinalText segs (initStates segs) = ""
  ∧ joinTexts (originalSpan <$> segs) = "X"
  ∧ computeFinalText segs (initStates segs) ≠ joinTexts (originalSpan <$> segs).
Proof. repeat split. discriminate. Qed.

(** [arraySet] writes the slot it is given, whatever the index. *)
Lemma stateAt_arraySet idx v arr : stateAt (arraySet idx v arr) idx = v.
Proof.
  unfold stateAt, arraySet. case_bool_decide as Hlt.
  - by rewrite list_lookup_insert_eq.
  - rewrite lookup_app_r by lia.
    rewrite lookup_app_r by (rewrite length_replicate; lia).
    rewrite length_replicate.
    by replace (idx - length arr - (idx - length arr)) with 0 by lia.
Qed.

Lemma updateState_records idx newState prev :
  stateAt (updateState idx newState prev) idx = Some newState.
Proof. apply stateAt_arraySet. Qed.

Lemma segmentControls_elem idx seg st i newState :
  (i, newState) ∈ segmentControls idx seg st →
  i = idx
  ∧ (op seg = "delete" ∨ op seg = "replace" ∨ op seg = "insert")
  ∧ (newState = "accepted" ∨ newState = "rejected")
  ∧ st ≠ Some "accepted" ∧ st ≠ Some "rejected".
Proof.
  unfold segmentControls.
  destruct (String.eqb_spec (op seg) "equal") as [|_]; [by intros ?%elem_of_nil|].
  destruct (String.eqb_spec (op seg) "delete") as [Hd|_];
    [|destruct (String.eqb_spec (op seg) "replace") as [Hr|_];
      [|destruct (String.eqb_spec (op seg) "insert") as [Hi|_];
        [|by intros ?%elem_of_nil]]];
    cbn [orb];
    (destruct (isState st "accepted") eqn:Ha; [by intros ?%elem_of_nil|];
     destruct (isState st "rejected") eqn:Hr'; [by intros ?%elem_of_nil|];
     cbn [orb]; intros Hin;
     assert (st ≠ Some "accepted")
       by (intros Heq; apply isState_eq in Heq; congruence);
     assert (st ≠ Some "rejected")
       by (intros Heq; apply isState_eq in Heq; congruence);
     apply elem_of_cons in Hin as [Hin|Hin];
       [|apply elem_of_cons in Hin as [Hin|Hin]; [|by apply elem_of_nil in Hin]];
     inversion Hin; subst; auto 10).
Qed.

Lemma mapControls_elem states segs : ∀ idx i newState,
  (i, newState) ∈ mapControls states idx segs →
  ∃ seg, idx ≤ i ∧ segs !! (i - idx) = Some seg
         ∧ (i, newState) ∈ segmentControls i seg (stateAt states i).
Proof.
  induction segs as [|seg rest IH]; intros idx i newState; cbn.
  - by intros ?%elem_of_nil.
  - intros [Hin|Hin]%elem_of_app.
    + destruct (segmentControls_elem _ _ _ _ _ Hin) as [-> _].
      exists seg. rewrite Nat.sub_diag. auto.
    + destruct (IH _ _ _ Hin) as (seg' & Hle & Hlook & Hin').
      exists seg'. split; [lia|]. split; [|exact Hin'].
      replace (i - idx) with (S (i - S idx)) by lia. exact Hlook.
Qed.

(** C7, as amended.  [updateState] itself has no guard: it records the
    new decision at whatever index it is given.  The guard is the
    render: every accept or reject control, the only callers of
    [updateState], belongs to an in-range [delete], [replace] or
    [insert] segment that is neither accepted nor rejected yet, so no
    control reaches an [equal] segment or an index out of range. *)
Theorem updateState_reached_only_through_controls
    (diffSegments : list DiffSegment) (states : States)
    (idx : nat) (newState : string) :
  (idx, newState) ∈ renderControls diffSegments states →
  (∃ seg, diffSegments !! idx = Some seg
          ∧ op seg ≠ "equal"
          ∧ (op seg = "delete" ∨ op seg = "replace" ∨ op seg = "insert"))
  ∧ (newState = "accepted" ∨ newState = "rejected")
  ∧ stateAt states idx ≠ Some "accepted"
  ∧ stateAt states idx ≠ Some "rejected"
  ∧ ∀ anyIdx anyState prev,
      stateAt (updateState anyIdx anyState prev) anyIdx = Some anyState.
Proof.
  intros Hin. unfold renderControls in Hin.
  destruct (mapControls_elem _ _ _ _ _ Hin) as (seg & _ & Hlook & Hin').
  rewrite Nat.sub_0_r in Hlook.
  destruct (segmentControls_elem _ _ _ _ _ Hin') as (_ & Hop & Hns & Ha & Hr).
  split; [|by auto using updateState_records].
  exists seg. split; [exact Hlook|]. split; [|exact Hop].
  intros Heq. rewrite Heq in Hop. by destruct Hop as [|[|]].
Qed.

Lemma updateState_reached_only_through_controls_example :
  let segs := [ {| op := "equal"; orig := Some "A "; suggested := None |};
                {| op := "replace"; orig := Some "B"; suggested := Some "C" |} ] in
  (1, "accepted") ∈ renderControls segs (initStates segs)
  ∧ stateAt (updateState 1 "accepted" (initStates segs)) 1 = Some "accepted".
Proof.
  assert (Hin : (1, "accepted")
                ∈ renderControls
                    [ {| op := "equal"; orig := Some "A "; suggested := None |};
                      {| op := "replace"; orig := Some "B"; suggested := Some "C" |} ]
                    (initStates
                       [ {| op := "equal"; orig := Some "A "; suggested := None |};
                         {| op := "replace"; orig := Some "B"; suggested := Some "C" |} ])).
  { vm_compute. constructor. }
  split; [exact Hin|].
  destruct (updateState_reached_only_through_controls _ _ _ _ Hin)
    as (_ & _ & _ & _ & Hrecords).
  apply Hrecords.
Defined.

(** C7, as stated, fails: called on an [equal] segment, [updateState]
    overwrites its decision, and called past the end it grows the
    array. *)
Lemma updateState_unguarded :
  let segs := [ {| op := "equal"; orig := Some "A"; suggested := None |} ] in
  initStates segs = [Some "accepted"]
  ∧ updateState 0 "rejected" (initStates segs) = [Some "rejected"]
  ∧ updateState 0 "rejected" (initStates segs) ≠ initStates segs
  ∧ updateState 3 "accepted" (initStates segs)
    = [Some "accepted"; None; None; Some "accepted"]
  ∧ updateState 3 "accepted" (initStates segs) ≠ initStates segs.
Proof. repeat split; discriminate. Qed.

End DiffInlineProps.

(** ** handleHighlightSection *)

Module HighlightProps.
Import Js Highlight.

(** *** The cache key *)

Lemma toInt32_range z : (- 2 ^ 31 ≤ toInt32 z < 2 ^ 31)%Z.
Proof. unfold toInt32. pose proof (Z.mod_pos_bound (z + 2 ^ 31) (2 ^ 32)). lia. Qed.

(** [^] on a signed 32-bit value and a code unit stays within signed 32
    bits, so [hashLoop] needs no wrap after the exclusive or. *)
Lemma lxor_int32 a b :
  (- 2 ^ 31 ≤ a < 2 ^ 31)%Z → (0 ≤ b < 2 ^ 31)%Z →
  (- 2 ^ 31 ≤ Z.lxor a b < 2 ^ 31)%Z.
Proof.
  assert (Hpos : ∀ x y, (0 ≤ x < 2 ^ 31)%Z → (0 ≤ y < 2 ^ 31)%Z →
                        (0 ≤ Z.lxor x y < 2 ^ 31)%Z).
  { intros x y Hx Hy.
    assert (0 ≤ Z.lxor x y)%Z by (apply Z.lxor_nonneg; lia).
    split; [assumption|].
    destruct (Z.eq_dec (Z.lxor x y) 0%Z) as [->|Hnz]; [lia|].
    apply Z.log2_lt_pow2; [lia|].
    eapply Z.le_lt_trans; [apply Z.log2_lxor; lia|].
    apply Z.max_lub_lt.
    - destruct (Z.eq_dec x 0%Z) as [->|]; [cbn; lia|apply Z.log2_lt_pow2; lia].
    - destruct (Z.eq_dec y 0%Z) as [->|]; [cbn; lia|apply Z.log2_lt_pow2; lia]. }
  intros Ha Hb. destruct (Z_lt_le_dec a 0%Z) as [Hneg|Hnn].
  - replace a with (Z.lnot (- a - 1)) by (unfold Z.lnot; lia).
    rewrite <- Z.lnot_lxor_l.
    specialize (Hpos (- a - 1)%Z b). unfold Z.lnot. lia.
  - specialize (Hpos a b). lia.
Qed.

Lemma hashLoop_int32 str : ∀ h,
  (- 2 ^ 31 ≤ h < 2 ^ 31)%Z → (- 2 ^ 31 ≤ hashLoop str h < 2 ^ 31)%Z.
Proof.
  induction str as [|c str IH]; intros h Hh; cbn [hashLoop]; [exact Hh|].
  apply IH, lxor_int32; [apply toInt32_range|].
  pose proof (N_ascii_bounded c). unfold charCode. lia.
Qed.

Lemma toUint32_range z : (0 ≤ toUint32 z < 36 ^ 7)%Z.
Proof. unfold toUint32. pose proof (Z.mod_pos_bound z (2 ^ 32)). lia. Qed.

(** The digit loop never runs out of turns on a number below
    [36 ^ fuel]: more turns give the same digits. *)
Lemma toString36From_enough fuel : ∀ n acc extra,
  (0 ≤ n < 36 ^ Z.of_nat (S fuel))%Z →
  toString36From (S fuel + extra) n acc = toString36From (S fuel) n acc.
Proof.
  induction fuel as [|fuel IH]; intros n acc extra Hn.
  - cbn [Nat.add toString36From].
    rewrite Z.div_small by (change (36 ^ Z.of_nat 1)%Z with 36%Z in Hn; lia).
    reflexivity.
  - change (toString36From (S (S fuel) + extra) n acc)
      with (let acc' := String (digit36 (n mod 36)) acc in
            if (n / 36 =? 0)%Z then acc'
            else toString36From (S fuel + extra) (n / 36) acc').
    change (toString36From (S (S fuel)) n acc)
      with (let acc' := String (digit36 (n mod 36)) acc in
            if (n / 36 =? 0)%Z then acc'
            else toString36From (S fuel) (n / 36) acc').
    cbv zeta. destruct (n / 36 =? 0)%Z; [reflexivity|].
    apply IH. split; [apply Z.div_pos; lia|].
    apply Z.div_lt_upper_bound; [lia|].
    rewrite <- Z.pow_succ_r by lia. rewrite <- Nat2Z.inj_succ. lia.
Qed.

Lemma hashKey_digits_complete str extra :
  toString36From (7 + extra) (toUint32 (hashLoop str 5381)) "" = hashKey str.
Proof. apply (toString36From_enough 6), toUint32_range. Qed.

Example hashKey_empty : hashKey "" = "45h".
Proof. vm_compute. reflexivity. Qed.

Example hashKey_a : hashKey "a" = "3t1g".
Proof. vm_compute. reflexivity. Qed.

(** *** The gate and the two ways through the cache *)

Lemma belowThreshold_Some s :
  belowThreshold (Some s) = (String.length s <? 20).
Proof.
  unfold belowThreshold. cbn [falsy orEmpty].
  destruct s as [|c s]; reflexivity.
Qed.

Lemma belowThreshold_short sectionText :
  String.length (orEmpty sectionText) < 20 → belowThreshold sectionText = true.
Proof.
  intros Hlen. unfold belowThreshold.
  apply Nat.ltb_lt in Hlen. rewrite Hlen. apply orb_true_r.
Qed.

Lemma belowThreshold_long s :
  20 ≤ String.length s → belowThreshold (Some s) = false.
Proof. intros Hlen. rewrite belowThreshold_Some. apply Nat.ltb_ge. lia. Qed.

(** A miss posts: whatever is in flight, the request is issued. *)
Lemma handleHighlightSection_miss app s :
  20 ≤ String.length s →
  highlightCache app !! hashKey s = None →
  handleHighlightSection (Some s) app
  = ({| highlightCache := highlightCache app;
        pdfBlobUrl := pdfBlobUrl app;
        isHighlighting := true;
        inflight := <[length (posted app) := s]> (inflight app);
        posted := posted app ++ [s];
        timers := timers app;
        consoleErrors := consoleErrors app |},
     Awaiting (length (posted app))).
Proof.
  intros Hlen Hmiss. unfold handleHighlightSection.
  rewrite (belowThreshold_long _ Hlen). cbn [orEmpty]. by rewrite Hmiss.
Qed.

Lemma handleHighlightSection_hit app s cached :
  20 ≤ String.length s →
  highlightCache app !! hashKey s = Some cached →
  handleHighlightSection (Some s) app
  = ({| highlightCache := highlightCache app;
        pdfBlobUrl := blobUrl cached;
        isHighlighting := false;
        inflight := inflight app;
        posted := posted app;
        timers := timers app;
        consoleErrors := consoleErrors app |},
     Returned).
Proof.
  intros Hlen Hhit. unfold handleHighlightSection.
  rewrite (belowThreshold_long _ Hlen). cbn [orEmpty]. by rewrite Hhit.
Qed.

(** With an entry under its key, a call returns at once whatever the
    excerpt: unchanged under the length gate, showing the entry past it. *)
Lemma handleHighlightSection_entry app s cached :
  highlightCache app !! hashKey s = Some cached →
  handleHighlightSection (Some s) app
  = (if String.length s <? 20 then app
     else {| highlightCache := highlightCache app;
             pdfBlobUrl := blobUrl cached;
             isHighlighting := false;
             inflight := inflight app;
             posted := posted app;
             timers := timers app;
             consoleErrors := consoleErrors app |},
     Returned).
Proof.
  intros Hhit. unfold handleHighlightSection.
  rewrite belowThreshold_Some. cbn [orEmpty]. rewrite Hhit.
  by destruct (String.length s <? 20).
Qed.

(** C9.  An excerpt shorter than 20 characters (a missing or empty one
    included) makes [handleHighlightSection] return at once: nothing is
    posted, and the cache, the displayed PDF URL and the highlighting
    flag are what they were. *)
Theorem handleHighlightSection_short_excerpt_noop
    (app : App) (sectionText : option string) :
  String.length (orEmpty sectionText) < 20 →
  handleHighlightSection sectionText app = (app, Returned).
Proof.
  intros Hlen. unfold handleHighlightSection.
  by rewrite (belowThreshold_short _ Hlen).
Qed.

Lemma handleHighlightSection_short_excerpt_noop_example :
  String.length (orEmpty (Some "nineteen characters")) < 20
  ∧ handleHighlightSection (Some "nineteen characters") initialApp
    = (initialApp, Returned).
Proof.
  split; [cbn; lia|].
  apply (handleHighlightSection_short_excerpt_noop initialApp
           (Some "nineteen characters")).
  cbn. lia.
Defined.

(** C6, as amended.  When the cache holds an entry under the
    fingerprint of the excerpt, [handleHighlightSection] returns without
    awaiting: nothing is posted and the cache is left as it is.  For an
    excerpt of at least 20 characters the stored object URL becomes the
    displayed one and the highlighting flag is cleared; an excerpt under
    20 characters has returned at the length gate before the cache is
    read, and the display stays as it was. *)
Theorem handleHighlightSection_cache_hit
    (app : App) (s : string) (cached : CacheEntry) :
  highlightCache app !! hashKey s = Some cached →
  snd (handleHighlightSection (Some s) app) = Returned
  ∧ posted (fst (handleHighlightSection (Some s) app)) = posted app
  ∧ inflight (fst (handleHighlightSection (Some s) app)) = inflight app
  ∧ highlightCache (fst (handleHighlightSection (Some s) app))
    = highlightCache app
  ∧ pdfBlobUrl (fst (handleHighlightSection (Some s) app))
    = (if String.length s <? 20 then pdfBlobUrl app else blobUrl cached)
  ∧ isHighlighting (fst (handleHighlightSection (Some s) app))
    = (if String.length s <? 20 then isHighlighting app else false).
Proof.
  intros Hhit. rewrite (handleHighlightSection_entry _ _ _ Hhit).
  by destruct (String.length s <? 20).
Qed.

Lemma handleHighlightSection_cache_hit_example :
  let s := "first excerpt of the document" in
  let entry := {| blobUrl := "blob:1"; text := s |} in
  let app := {| highlightCache := {[ hashKey s := entry ]};
                pdfBlobUrl := "/cmc.pdf";
                isHighlighting := false;
                inflight := ∅;
                posted := [s];
                timers := 0;
                consoleErrors := 0 |} in
  highlightCache app !! hashKey s = Some entry
  ∧ snd (handleHighlightSection (Some s) app) = Returned
  ∧ posted (fst (handleHighlightSection (Some s) app)) = [s]
  ∧ pdfBlobUrl (fst (handleHighlightSection (Some s) app)) = "blob:1".
Proof.
  intros s entry app.
  assert (Hhit : highlightCache app !! hashKey s = Some entry)
    by apply lookup_singleton_eq.
  destruct (handleHighlightSection_cache_hit app s entry Hhit)
    as (Hret & Hposted & _ & _ & Hurl & _).
  repeat split; assumption.
Defined.

(** C6, as stated, fails: the keys of a 13-character excerpt and of a
    stored 29-character one coincide, so the short excerpt has a cache
    entry under its fingerprint; the call with it stops at the length
    gate and leaves on display the URL of another excerpt instead of
    the stored one. *)
Lemma short_excerpt_with_entry_is_not_served :
  let short := "short suvqypr" in
  let long := "first excerpt of the document" in
  let other := "second excerpt of the document" in
  ∃ app,
    run initialApp [Call (Some long); Respond 0 (Blob "blob:A");
                    Call (Some other); Respond 1 (Blob "blob:M")] = Some app
    ∧ hashKey short = hashKey long
    ∧ highlightCache app !! hashKey short
      = Some {| blobUrl := "blob:A"; text := long |}
    ∧ handleHighlightSection (Some short) app = (app, Returned)
    ∧ pdfBlobUrl (fst (handleHighlightSection (Some short) app)) = "blob:M"
    ∧ pdfBlobUrl (fst (handleHighlightSection (Some short) app)) ≠ "blob:A".
Proof.
  eexists. split; [vm_compute; reflexivity|].
  split; [vm_compute; reflexivity|].
  split; [vm_compute; reflexivity|].
  split; [reflexivity|].
  split; [reflexivity | discriminate].
Qed.

(** C3, as stated, fails: two calls with the same excerpt, the second
    while the first is in flight, post twice. *)
Lemma concurrent_calls_post_twice :
  let s := "first excerpt of the document" in
  snd (handleHighlightSection (Some s) initialApp) = Awaiting 0
  ∧ snd (handleHighlightSection (Some s)
           (fst (handleHighlightSection (Some s) initialApp))) = Awaiting 1
  ∧ posted <$> run initialApp [Call (Some s); Call (Some s)] = Some [s; s]
  ∧ posted <$> run initialApp [Call (Some s); Call (Some s)] ≠ Some [s].
Proof. vm_compute. repeat split. discriminate. Qed.

(** C3, as amended.  Requests in flight are not tracked.  On a miss, a
    call issued while a request for the same excerpt is in flight posts
    again: two such calls post twice and each awaits its own answer.
    Once an answer is stored, a further call posts nothing. *)
Theorem calls_coalesce_only_through_cache
    (app : App) (s : string) (objectUrl : string) :
  20 ≤ String.length s →
  highlightCache app !! hashKey s = None →
  let n := length (posted app) in
  let app1 := fst (handleHighlightSection (Some s) app) in
  let app2 := fst (handleHighlightSection (Some s) app1) in
  snd (handleHighlightSection (Some s) app) = Awaiting n
  ∧ snd (handleHighlightSection (Some s) app1) = Awaiting (S n)
  ∧ posted app2 = posted app ++ [s; s]
  ∧ inflight app2 !! n = Some s
  ∧ inflight app2 !! S n = Some s
  ∧ ∃ app3,
      resumeHighlight n (Blob objectUrl) app2 = Some (app3, Fulfilled)
      ∧ snd (handleHighlightSection (Some s) app3) = Returned
      ∧ posted (fst (handleHighlightSection (Some s) app3)) = posted app2.
Proof.
  intros Hlen Hmiss n app1 app2. subst app2 app1 n.
  rewrite (handleHighlightSection_miss _ _ Hlen Hmiss). cbn [fst snd].
  rewrite (handleHighlightSection_miss _ _ Hlen); [|exact Hmiss].
  cbn [fst snd posted inflight]. rewrite length_app. cbn [length].
  replace (length (posted app) + 1) with (S (length (posted app))) by lia.
  assert (Hn : <[S (length (posted app)) := s]>
                 (<[length (posted app) := s]> (inflight app))
               !! length (posted app) = Some s).
  { rewrite lookup_insert_ne by lia. apply lookup_insert_eq. }
  repeat split.
  - by rewrite <- app_assoc.
  - exact Hn.
  - apply lookup_insert_eq.
  - unfold resumeHighlight. cbn [inflight]. rewrite Hn. eexists. split; [reflexivity|].
    erewrite handleHighlightSection_hit;
      [split; reflexivity | exact Hlen | apply lookup_insert_eq].
Qed.

Lemma calls_coalesce_only_through_cache_example :
  let s := "first excerpt of the document" in
  posted (fst (handleHighlightSection (Some s)
                 (fst (handleHighlightSection (Some s) initialApp))))
  = [s; s].
Proof.
  intros s.
  assert (Hlen : 20 ≤ String.length s) by (cbn; lia).
  assert (Hmiss : highlightCache initialApp !! hashKey s = None)
    by apply lookup_empty.
  destruct (calls_coalesce_only_through_cache initialApp s "blob:1" Hlen Hmiss)
    as (_ & _ & Hposted & _).
  exact Hposted.
Defined.

(** C4, as stated, fails: A is called, then B before A is answered; B
    is answered first and A last, and the URL left on display is A's. *)
Lemma late_answer_overrides_newer_call :
  let a := "first excerpt of the document" in
  let b := "second excerpt of the document" in
  let events := [Call (Some a); Call (Some b);
                 Respond 1 (Blob "blob:B"); Respond 0 (Blob "blob:A")] in
  pdfBlobUrl <$> run initialApp events = Some "blob:A"
  ∧ pdfBlobUrl <$> run initialApp events ≠ Some "blob:B".
Proof. vm_compute. split; [reflexivity | discriminate]. Qed.

(** C4, as amended.  The last answer wins: when the answer to any
    awaited request arrives, its object URL becomes the displayed one
    and is stored under the fingerprint of its excerpt, whichever calls
    were made in the meantime.  [handleHighlightSection] sets no page
    number and compares no generation. *)
Theorem every_answer_is_surfaced
    (app : App) (req : nat) (s : string) (objectUrl : string) :
  inflight app !! req = Some s →
  ∃ app',
    resumeHighlight req (Blob objectUrl) app = Some (app', Fulfilled)
    ∧ pdfBlobUrl app' = objectUrl
    ∧ highlightCache app' !! hashKey s
      = Some {| blobUrl := objectUrl; text := s |}
    ∧ posted app' = posted app
    ∧ inflight app' = delete req (inflight app)
    ∧ timers app' = S (timers app).
Proof.
  intros Hreq. unfold resumeHighlight. rewrite Hreq.
  eexists. split; [reflexivity|]. cbn.
  repeat split. apply lookup_insert_eq.
Qed.

Lemma every_answer_is_surfaced_example :
  let a := "first excerpt of the document" in
  let b := "second excerpt of the document" in
  let app := fst (handleHighlightSection (Some b)
                    (fst (handleHighlightSection (Some a) initialApp))) in
  inflight app !! 0 = Some a
  ∧ ∃ app', resumeHighlight 0 (Blob "blob:A") app = Some (app', Fulfilled)
            ∧ pdfBlobUrl app' = "blob:A".
Proof.
  intros a b app.
  assert (Hreq : inflight app !! 0 = Some a) by (vm_compute; reflexivity).
  split; [exact Hreq|].
  destruct (every_answer_is_surfaced app 0 a "blob:A" Hreq)
    as (app' & Hres & Hurl & _).
  exists app'. split; assumption.
Defined.

(** C5, as stated, fails: when the request is rejected the promise of
    [handleHighlightSection] is fulfilled, not rejected; the error only
    reaches [console.error]. *)
Lemma failure_is_not_rethrown :
  let s := "first excerpt of the document" in
  let app := fst (handleHighlightSection (Some s) initialApp) in
  snd <$> resumeHighlight 0 NetworkError app = Some Fulfilled
  ∧ snd <$> resumeHighlight 0 NetworkError app ≠ Some Rejected
  ∧ (consoleErrors ∘ fst) <$> resumeHighlight 0 NetworkError app = Some 1.
Proof. vm_compute. repeat split. discriminate. Qed.

(** C5, as amended.  When the request fails, nothing is stored and the
    displayed URL stays; the error is caught, written to the console and
    the promise is fulfilled; a later call with the same excerpt, still
    absent from the cache, posts a fresh request. *)
Theorem failure_is_logged_and_not_cached
    (app : App) (req : nat) (s : string) :
  20 ≤ String.length s →
  inflight app !! req = Some s →
  highlightCache app !! hashKey s = None →
  ∃ app',
    resumeHighlight req NetworkError app = Some (app', Fulfilled)
    ∧ highlightCache app' = highlightCache app
    ∧ pdfBlobUrl app' = pdfBlobUrl app
    ∧ consoleErrors app' = S (consoleErrors app)
    ∧ timers app' = S (timers app)
    ∧ snd (handleHighlightSection (Some s) app') = Awaiting (length (posted app))
    ∧ posted (fst (handleHighlightSection (Some s) app')) = posted app ++ [s].
Proof.
  intros Hlen Hreq Hmiss. unfold resumeHighlight. rewrite Hreq.
  eexists. split; [reflexivity|]. cbn [highlightCache pdfBlobUrl consoleErrors timers].
  do 4 (split; [reflexivity|]).
  rewrite handleHighlightSection_miss; [|exact Hlen|exact Hmiss].
  split; reflexivity.
Qed.

Lemma failure_is_logged_and_not_cached_example :
  let s := "first excerpt of the document" in
  let app := fst (handleHighlightSection (Some s) initialApp) in
  ∃ app',
    resumeHighlight 0 NetworkError app = Some (app', Fulfilled)
    ∧ highlightCache app' = ∅
    ∧ posted (fst (handleHighlightSection (Some s) app')) = [s; s].
Proof.
  intros s app.
  assert (Hlen : 20 ≤ String.length s) by (cbn; lia).
  assert (Hreq : inflight app !! 0 = Some s) by (vm_compute; reflexivity).
  assert (Hmiss : highlightCache app !! hashKey s = None) by apply lookup_empty.
  destruct (failure_is_logged_and_not_cached app 0 s Hlen Hreq Hmiss)
    as (app' & Hres & Hcache & _ & _ & _ & _ & Hposted).
  exists app'. repeat split; assumption.
Defined.

(** *** Along the interleavings *)

Lemma run_app app events1 : ∀ events2,
  run app (events1 ++ events2) = run app events1 ≫= fun app' => run app' events2.
Proof.
  revert app. induction events1 as [|e events1 IH]; intros app events2; cbn.
  - reflexivity.
  - destruct (step app e) as [app1|]; cbn; [apply IH | reflexivity].
Qed.

(** No step removes a cache entry. *)
Lemma step_cache_keeps app e app' key :
  step app e = Some app' →
  is_Some (highlightCache app !! key) → is_Some (highlightCache app' !! key).
Proof.
  destruct e as [sectionText | req resp |]; cbn.
  - intros [= <-]. unfold handleHighlightSection.
    destruct (belowThreshold sectionText); [done|].
    by destruct (highlightCache app !! hashKey (orEmpty sectionText)).
  - unfold resumeHighlight.
    destruct (inflight app !! req) as [s|]; cbn; [|done].
    intros [= <-]. destruct resp; cbn; [|done].
    intros Hkey. rewrite lookup_insert. by case_decide.
  - unfold timerFires. destruct (timers app); [done|]. by intros [= <-].
Qed.

Lemma run_cache_keeps events : ∀ app app' key,
  run app events = Some app' →
  is_Some (highlightCache app !! key) → is_Some (highlightCache app' !! key).
Proof.
  induction events as [|e events IH]; intros app app' key; cbn.
  - by intros [= <-].
  - destruct (step app e) as [app1|] eqn:Hstep; cbn; [|done].
    intros Hrun Hkey. eapply IH; [exact Hrun|].
    eapply step_cache_keeps; eauto.
Qed.

(** Once an excerpt has an entry, no later call for it posts again,
    whatever happened in between. *)
Lemma cached_excerpt_never_posts_again app events app' s :
  is_Some (highlightCache app !! hashKey s) →
  run app events = Some app' →
  snd (handleHighlightSection (Some s) app') = Returned
  ∧ posted (fst (handleHighlightSection (Some s) app')) = posted app'.
Proof.
  intros Hkey Hrun.
  destruct (run_cache_keeps _ _ _ _ Hrun Hkey) as [cached Hcached].
  rewrite (handleHighlightSection_entry _ _ _ Hcached).
  by destruct (String.length s <? 20).
Qed.

(** Whatever the interleaving, the URL on display after an answer is the
    URL of that answer. *)
Lemma last_answer_wins app events req objectUrl app' :
  run app (events ++ [Respond req (Blob objectUrl)]) = Some app' →
  pdfBlobUrl app' = objectUrl.
Proof.
  rewrite run_app. destruct (run app events) as [app1|]; cbn; [|done].
  unfold resumeHighlight. destruct (inflight app1 !! req); cbn; [|done].
  by intros [= <-].
Qed.

End HighlightProps.

(** ** More on the locator: tokens, scores, letter case *)

Module LocatorExtra.
Import Js Locator Text.

Ltac each_char c :=
  destruct c as [[] [] [] [] [] [] [] []]; vm_compute; congruence.

Lemma isSpaceChar_lowerChar c : isSpaceChar (lowerChar c) = isSpaceChar c.
Proof. each_char c. Qed.

Lemma isHyphen_lowerChar c : isHyphen (lowerChar c) = isHyphen c.
Proof. each_char c. Qed.

Lemma isNewline_lowerChar c : isNewline (lowerChar c) = isNewline c.
Proof. each_char c. Qed.

Lemma isWhiteSpace_lower c : isWhiteSpace (lowerChar c) = isWhiteSpace c.
Proof. each_char c. Qed.

Lemma lowerChar_twice c : lowerChar (lowerChar c) = lowerChar c.
Proof. each_char c. Qed.

Lemma isSpaceChar_isWhiteSpace c : isSpaceChar c = true → isWhiteSpace c = true.
Proof. each_char c. Qed.

Lemma isSpaceChar_space c : isSpaceChar c = true → c = " "%char.
Proof. each_char c. Qed.

(** *** Letter case does not matter *)

Lemma lineBreakLength_toLowerCase s :
  lineBreakLength (toLowerCase s) = lineBreakLength s.
Proof.
  induction s as [|c s IH]; cbn; [reflexivity|].
  by rewrite isWhiteSpace_lower, isNewline_lowerChar, IH.
Qed.

Lemma replaceHyphenBreaks_toLowerCase s : ∀ skip,
  replaceHyphenBreaks skip (toLowerCase s)
  = toLowerCase (replaceHyphenBreaks skip s).
Proof.
  induction s as [|c s IH]; intros skip; cbn; [reflexivity|].
  destruct skip as [|k]; [|apply IH].
  rewrite isHyphen_lowerChar, lineBreakLength_toLowerCase.
  destruct (isHyphen c); [destruct (lineBreakLength s)|]; cbn; by rewrite IH.
Qed.

Lemma collapseWhiteSpace_toLowerCase s : ∀ b,
  collapseWhiteSpace b (toLowerCase s) = toLowerCase (collapseWhiteSpace b s).
Proof.
  induction s as [|c s IH]; intros b; cbn; [reflexivity|].
  rewrite isWhiteSpace_lower.
  destruct (isWhiteSpace c); [destruct b|]; cbn; by rewrite IH.
Qed.

Lemma toLowerCase_twice s : toLowerCase (toLowerCase s) = toLowerCase s.
Proof.
  induction s as [|c s IH]; cbn; [reflexivity|]. by rewrite lowerChar_twice, IH.
Qed.

Lemma normalizeText_toLowerCase s :
  normalizeText (toLowerCase s) = normalizeText s.
Proof.
  unfold normalizeText.
  by rewrite replaceHyphenBreaks_toLowerCase, collapseWhiteSpace_toLowerCase,
    toLowerCase_twice.
Qed.

Lemma toLowerCase_empty s : toLowerCase s = "" ↔ s = "".
Proof. destruct s; cbn; split; congruence. Qed.

Lemma detectMatchedPage_toLowerCase s documentData :
  detectMatchedPage (Some (toLowerCase s)) documentData
  = detectMatchedPage (Some s) documentData.
Proof.
  unfold detectMatchedPage. destruct (documentData ≫= pages) as [ps|]; [|reflexivity].
  cbn [falsy orEmpty]. rewrite normalizeText_toLowerCase.
  destruct s; reflexivity.
Qed.

(** *** Scores count substrings *)

Lemma startsWith_spec w : ∀ s,
  startsWith w s = true ↔ ∃ post, s = w +:+ post.
Proof.
  induction w as [|a w IH]; intros s.
  - split; [intros _; by exists s | by destruct s].
  - destruct s as [|b s]; cbn.
    + split; [discriminate | intros [post Hpost]; discriminate].
    + destruct (Ascii.eqb_spec a b) as [->|Hne].
      * rewrite IH. split; intros [post Hpost]; exists post.
        -- by rewrite Hpost.
        -- by injection Hpost.
      * split; [discriminate|]. intros [post Hpost]. injection Hpost. congruence.
Qed.

Lemma includes_spec w s :
  includes w s = true ↔ ∃ pre post, s = pre +:+ w +:+ post.
Proof.
  induction s as [|b s IH].
  - cbn. rewrite orb_false_r, startsWith_spec. split.
    + intros [post Hpost]. by exists "", post.
    + intros (pre & post & Hs). destruct pre; [by exists post|discriminate].
  - cbn [includes]. rewrite orb_true_iff, startsWith_spec, IH. split.
    + intros [[post Hpost] | (pre & post & Hs)].
      * by exists "", post.
      * exists (String b pre), post. by rewrite Hs.
    + intros (pre & post & Hs). destruct pre as [|c pre].
      * left. by exists post.
      * right. exists pre, post. by injection Hs.
Qed.

Lemma countContained_from tokens pageNorm : ∀ n,
  fold_left (fun score w => if includes w pageNorm then S score else score)
            tokens n
  = n + length (filter (fun w => includes w pageNorm = true) tokens).
Proof.
  induction tokens as [|w ws IH]; intros n; cbn [fold_left].
  - cbn. lia.
  - rewrite IH, filter_cons. destruct (includes w pageNorm) eqn:Hw.
    + rewrite decide_True by reflexivity. cbn. lia.
    + rewrite decide_False by discriminate. lia.
Qed.

Lemma countContained_filter tokens pageNorm :
  countContained tokens pageNorm
  = length (filter (fun w => includes w pageNorm = true) tokens).
Proof. unfold countContained. by rewrite countContained_from. Qed.

Lemma pageScore_le tokens p : pageScore tokens p ≤ length tokens.
Proof.
  unfold pageScore. rewrite countContained_filter. apply length_filter.
Qed.

(** X2.  The score of a page is the number of excerpt tokens that occur
    in the normalised page text as contiguous substrings, wherever they
    start and end (inside longer words too); it never exceeds the number
    of tokens. *)
Theorem pageScore_counts_substrings (tokens : list string) (p : PageRecord) :
  pageScore tokens p
  = length (filter (fun w => includes w (normalizeText (orEmpty (text p))) = true)
                   tokens)
  ∧ (∀ w, includes w (normalizeText (orEmpty (text p))) = true
          ↔ ∃ pre post, normalizeText (orEmpty (text p)) = pre +:+ w +:+ post)
  ∧ pageScore tokens p ≤ length tokens.
Proof.
  split; [apply countContained_filter|].
  split; [intros w; apply includes_spec | apply pageScore_le].
Qed.

(** X3.  Within Latin-1 (code units below U+0100, the strings of this
    model, on which [toLowerCase] works code unit by code unit), letter
    case of the excerpt does not matter: two such excerpts that are
    equal once lower-cased locate the same page. *)
Theorem detectMatchedPage_ignores_case
    (s1 s2 : string) (documentData : option DocumentData) :
  toLowerCase s1 = toLowerCase s2 →
  detectMatchedPage (Some s1) documentData
  = detectMatchedPage (Some s2) documentData.
Proof.
  intros Hlow.
  rewrite <- (detectMatchedPage_toLowerCase s1), <- (detectMatchedPage_toLowerCase s2).
  by rewrite Hlow.
Qed.

Lemma detectMatchedPage_ignores_case_example :
  let doc := Some {| num_pages := 2;
                     pages := Some [ {| page_number := 1; text := Some "Summary" |};
                                     {| page_number := 2;
                                        text := Some "Stability DATA of the product" |} ] |} in
  toLowerCase "STABILITY Data" = toLowerCase "stability data"
  ∧ detectMatchedPage (Some "STABILITY Data") doc
    = detectMatchedPage (Some "stability data") doc.
Proof.
  intros doc.
  assert (Hlow : toLowerCase "STABILITY Data" = toLowerCase "stability data")
    by (vm_compute; reflexivity).
  split; [exact Hlow|].
  exact (detectMatchedPage_ignores_case _ _ doc Hlow).
Defined.

(** *** Shape of the tokens *)

Lemma splitSpace_toLowerCase s :
  splitSpace (toLowerCase s) = toLowerCase <$> splitSpace s.
Proof.
  induction s as [|c s IH]; cbn [toLowerCase splitSpace]; [reflexivity|].
  rewrite isSpaceChar_lowerChar, IH.
  destruct (isSpaceChar c); [reflexivity|].
  by destruct (splitSpace s).
Qed.

Lemma fmap_fixed_elem {A} (f : A → A) (l : list A) x :
  f <$> l = l → x ∈ l → f x = x.
Proof.
  induction l as [|y l IH]; cbn; intros Hfix Hx.
  - by apply elem_of_nil in Hx.
  - injection Hfix as Hy Hl.
    apply elem_of_cons in Hx as [->|Hx]; [exact Hy | by apply IH].
Qed.

Lemma splitSpace_noWhiteSpace s : ∀ b,
  singleSpaced b s = true →
  Forall (fun w => noWhiteSpace w = true) (splitSpace s).
Proof.
  induction s as [|c s IH]; intros b; cbn [singleSpaced splitSpace].
  - intros _. by repeat constructor.
  - destruct (isWhiteSpace c) eqn:Hws.
    + intros [[Hsp _]%andb_prop Hs]%andb_prop. rewrite Hsp.
      constructor; [reflexivity | by apply (IH true)].
    + intros Hs. specialize (IH false Hs).
      destruct (isSpaceChar c) eqn:Hsp.
      { apply isSpaceChar_isWhiteSpace in Hsp. congruence. }
      destruct (splitSpace s) as [|piece pieces].
      * repeat constructor. unfold noWhiteSpace. cbn. by rewrite Hws.
      * inversion IH as [|? ? Hpiece Hpieces]; subst.
        constructor; [|exact Hpieces].
        unfold noWhiteSpace in *. cbn. by rewrite Hws.
Qed.

(** X1.  Every token that [detectMatchedPage] looks for is longer than
    five characters, holds no white space of any kind and no capital
    letter. *)
Theorem excerptTokens_shape (sectionText : option string) (w : string) :
  w ∈ excerptTokens sectionText →
  5 < String.length w ∧ noWhiteSpace w = true ∧ toLowerCase w = w.
Proof.
  unfold excerptTokens, tokenize. intros [Hlen Hw]%list_elem_of_filter.
  split; [exact Hlen|]. split.
  - pose proof (splitSpace_noWhiteSpace _ _
      (NormalizeProps.singleSpaced_normalizeText (orEmpty sectionText))) as Hall.
    rewrite Forall_forall in Hall. by apply Hall.
  - apply (fmap_fixed_elem toLowerCase
             (splitSpace (normalizeText (orEmpty sectionText)))); [|exact Hw].
    by rewrite <- splitSpace_toLowerCase,
      NormalizeProps.toLowerCase_normalizeText.
Qed.

Lemma excerptTokens_shape_example :
  "crocodile" ∈ excerptTokens (Some "  The CROCODILE   diagram ")
  ∧ toLowerCase "crocodile" = "crocodile".
Proof.
  assert (Hin : "crocodile" ∈ excerptTokens (Some "  The CROCODILE   diagram "))
    by (vm_compute; constructor).
  split; [exact Hin|].
  exact (proj2 (proj2 (excerptTokens_shape _ _ Hin))).
Defined.

(** *** Pieces and tokens *)

Lemma splitSpace_nonempty s : splitSpace s ≠ [].
Proof.
  destruct s as [|c s]; cbn [splitSpace]; [discriminate|].
  destruct (isSpaceChar c); [discriminate|]. by destruct (splitSpace s).
Qed.

Lemma joinSpaces_cons_char c piece pieces :
  joinSpaces (String c piece :: pieces) = String c (joinSpaces (piece :: pieces)).
Proof. cbn [joinSpaces]. by destruct pieces. Qed.

(** [split(" ")] cuts at every space and nowhere else. *)
Lemma splitSpace_join s : joinSpaces (splitSpace s) = s.
Proof.
  induction s as [|c s IH]; [reflexivity|]. cbn [splitSpace].
  destruct (isSpaceChar c) eqn:Hc.
  - apply isSpaceChar_space in Hc as ->.
    pose proof (splitSpace_nonempty s) as Hne.
    cbn [joinSpaces]. destruct (splitSpace s) as [|piece pieces]; [done|].
    by rewrite IH.
  - pose proof (splitSpace_nonempty s) as Hne.
    destruct (splitSpace s) as [|piece pieces]; [done|].
    by rewrite joinSpaces_cons_char, IH.
Qed.

Lemma splitSpace_noSpace s : Forall (fun w => noSpace w = true) (splitSpace s).
Proof.
  induction s as [|c s IH]; cbn [splitSpace]; [by repeat constructor|].
  destruct (isSpaceChar c) eqn:Hc; [by constructor|].
  destruct (splitSpace s) as [|piece pieces].
  - repeat constructor. unfold noSpace. cbn. by rewrite Hc.
  - inversion IH as [|? ? Hpiece Hpieces]; subst.
    constructor; [|exact Hpieces]. unfold noSpace in *. cbn. by rewrite Hc.
Qed.

End LocatorExtra.

(** ** The locator as a whole *)

Module LocatorClaim.
Import Js Locator Text.

(** C1.  [detectMatchedPage] answers the page number of the first page,
    in index order, whose token-containment score is positive, above the
    score of every earlier page and not below that of any later page (a
    later page with an equal score never replaces an earlier one, a page
    scoring 0 is never chosen), and [null] exactly when every page
    scores 0.  The score of a page is the number of excerpt tokens that
    occur as substrings of its normalised text; the tokens are the
    pieces longer than five characters among the space-free pieces that
    make up the normalised excerpt. *)
Theorem detectMatchedPage_first_strict_maximum
    (sectionText : option string) (documentData : option DocumentData) :
  let tokens := excerptTokens sectionText in
  let sc := pageScore tokens in
  let ps := pagesOf documentData in
  match detectMatchedPage sectionText documentData with
  | Some n =>
      ∃ pre p post,
        ps = pre ++ p :: post
        ∧ n = page_number p
        ∧ 0 < sc p
        ∧ Forall (fun q => sc q < sc p) pre
        ∧ Forall (fun q => sc q ≤ sc p) post
  | None => Forall (fun q => sc q = 0) ps
  end
  ∧ (∀ p, sc p
          = length (filter (fun w => includes w (normalizeText (orEmpty (text p))) = true)
                           tokens))
  ∧ (∀ w s, includes w s = true ↔ ∃ pre post, s = pre +:+ w +:+ post)
  ∧ ∃ pieces,
      joinSpaces pieces = normalizeText (orEmpty sectionText)
      ∧ Forall (fun w => noSpace w = true) pieces
      ∧ tokens = filter (fun w => 5 < String.length w) pieces.
Proof.
  intros tokens sc ps. subst tokens sc ps.
  split; [apply LocatorProps.detectMatchedPage_selects|].
  split; [intros p; apply LocatorExtra.countContained_filter|].
  split; [apply LocatorExtra.includes_spec|].
  exists (splitSpace (normalizeText (orEmpty sectionText))).
  split; [apply LocatorExtra.splitSpace_join|].
  split; [apply LocatorExtra.splitSpace_noSpace | reflexivity].
Qed.

(** The locator example of the specification, and a tie that needs the
    normalisation (a line-break hyphen, capitals, a double space). *)
Lemma detectMatchedPage_first_strict_maximum_example :
  let p1 := {| page_number := 1; text := Some "alphabet bananas" |} in
  let p2 := {| page_number := 2; text := Some "alphabet crocodile diagram" |} in
  let doc := Some {| num_pages := 2; pages := Some [p1; p2] |} in
  let excerpt := Some "bananas crocodile diagram" in
  detectMatchedPage excerpt doc = Some 2%Z
  ∧ excerptTokens excerpt = ["bananas"; "crocodile"; "diagram"]
  ∧ pageScore (excerptTokens excerpt) p1 = 1
  ∧ pageScore (excerptTokens excerpt) p2 = 2
  ∧ (∃ pre p post,
       [p1; p2] = pre ++ p :: post
       ∧ 2%Z = page_number p
       ∧ 0 < pageScore (excerptTokens excerpt) p
       ∧ Forall (fun q => pageScore (excerptTokens excerpt) q
                          < pageScore (excerptTokens excerpt) p) pre)
  ∧ detectMatchedPage (Some ("Bananas CROCO-" +:+ String "010" "DILE"))
      (Some {| num_pages := 2;
               pages := Some [ {| page_number := 4; text := Some "Bananas  and CROCODILE" |};
                               {| page_number := 7; text := Some "crocodile bananas" |} ] |})
    = Some 4%Z.
Proof.
  intros p1 p2 doc excerpt.
  assert (Hres : detectMatchedPage excerpt doc = Some 2%Z) by (vm_compute; reflexivity).
  destruct (detectMatchedPage_first_strict_maximum excerpt doc) as [Hsel _].
  rewrite Hres in Hsel.
  destruct Hsel as (pre & p & post & Hps & Hn & Hpos & Hpre & _).
  split; [exact Hres|].
  split; [vm_compute; reflexivity|].
  split; [vm_compute; reflexivity|].
  split; [vm_compute; reflexivity|].
  split; [by exists pre, p, post|].
  vm_compute. reflexivity.
Defined.

End LocatorClaim.

(** ** CmcViewer *)

Module CmcViewerProps.
Import Js Locator CmcViewer.

Lemma detectLoop_locateLoop tokens ps : ∀ best,
  detectLoop tokens ps best = Normal (locateLoop tokens ps best).
Proof.
  induction ps as [|p ps IH]; intros best; cbn [detectLoop normalize].
  - reflexivity.
  - rewrite IH. reflexivity.
Qed.

(** The running best never exceeds the number of tokens. *)
Lemma locateLoop_score_le tokens ps bp b :
  b ≤ length tokens → snd (locateLoop tokens ps (bp, b)) ≤ length tokens.
Proof.
  intros Hb.
  destruct (LocatorProps.locateLoop_first_best tokens ps bp b)
    as [[-> _] | (pre & p & post & _ & -> & _)]; cbn [snd].
  - exact Hb.
  - apply LocatorExtra.pageScore_le.
Qed.

Lemma locateLoop_no_tokens ps : locateLoop [] ps (None, 0) = (None, 0).
Proof.
  destruct (LocatorProps.locateLoop_first_best [] ps None 0)
    as [[Hsame _] | (pre & p & post & _ & _ & Hlt & _)]; [exact Hsame|].
  cbn in Hlt. lia.
Qed.

Lemma autoDetect_runs document ps s v :
  document ≫= pages = Some ps → ps ≠ [] → s ≠ "" →
  autoDetect document (Some s) v
  = let best := locateLoop (excerptTokens (Some s)) ps (None, 0) in
    if truthyPage (fst best) && (5 <=? snd best)
    then Normal ({| matchedPage := fst best; matchedScore := snd best;
                    hasJumped := true |}, fst best)
    else Normal ({| matchedPage := fst best; matchedScore := snd best;
                    hasJumped := false |}, None).
Proof.
  intros Hps Hne Hs. unfold autoDetect. rewrite Hps.
  destruct ps as [|p ps]; [done|].
  cbn [falsy]. apply String.eqb_neq in Hs. rewrite Hs.
  cbn [normalize orEmpty]. rewrite detectLoop_locateLoop.
  unfold excerptTokens. cbn [orEmpty].
  destruct (locateLoop (tokenize (normalizeText s)) (p :: ps) (None, 0))
    as [bestPage bestScore].
  cbn [fst snd negb]. by rewrite andb_true_r.
Qed.

(** X4.  When the document has pages and the context is not empty, the
    effect of CmcViewer never throws and stores in [matchedPage] exactly
    what [detectMatchedPage] answers for the same text and document. *)
Theorem autoDetect_agrees_with_detectMatchedPage
    (document : option DocumentData) (ps : list PageRecord)
    (s : string) (v : Viewer) :
  document ≫= pages = Some ps → ps ≠ [] → s ≠ "" →
  ∃ v' jump,
    autoDetect document (Some s) v = Normal (v', jump)
    ∧ matchedPage v' = detectMatchedPage (Some s) document
    ∧ (jump = None ∨ jump = matchedPage v').
Proof.
  intros Hps Hne Hs. rewrite (autoDetect_runs _ _ _ _ Hps Hne Hs). cbv zeta.
  assert (Hsame : fst (locateLoop (excerptTokens (Some s)) ps (None, 0))
                  = detectMatchedPage (Some s) document).
  { unfold detectMatchedPage. rewrite Hps. cbn [falsy].
    apply String.eqb_neq in Hs. rewrite Hs.
    unfold excerptTokens. cbn [orEmpty].
    destruct (tokenize (normalizeText s)); [|reflexivity].
    by rewrite locateLoop_no_tokens. }
  destruct (truthyPage _ && _); eexists _, _; cbn; eauto.
Qed.

Lemma autoDetect_agrees_with_detectMatchedPage_example :
  let ps := [ {| page_number := 1; text := Some "alphabet bananas" |};
              {| page_number := 2; text := Some "alphabet crocodile diagram" |} ] in
  let doc := Some {| num_pages := 2; pages := Some ps |} in
  ∃ v' jump,
    autoDetect doc (Some "bananas crocodile diagram") initialViewer
    = Normal (v', jump)
    ∧ matchedPage v' = Some 2%Z.
Proof.
  intros ps doc.
  destruct (autoDetect_agrees_with_detectMatchedPage doc ps
              "bananas crocodile diagram" initialViewer)
    as (v' & jump & Hrun & Hpage & _); [reflexivity | discriminate | discriminate |].
  exists v', jump. split; [exact Hrun|]. rewrite Hpage. vm_compute. reflexivity.
Defined.

(** X5.  The auto-jump fires only on a strong match: the page handed to
    [onPageChange] is the stored [matchedPage], it is not 0, its score
    is at least 5 and cannot exceed the number of tokens of the context,
    so a context with fewer than five tokens never jumps; the "Go to
    Page" button is shown as well. *)
Theorem autoDetect_jump_needs_five_tokens
    (document : option DocumentData) (cmcContext : option string)
    (v v' : Viewer) (n : Z) :
  autoDetect document cmcContext v = Normal (v', Some n) →
  n ≠ 0%Z
  ∧ matchedPage v' = Some n
  ∧ 5 ≤ matchedScore v'
  ∧ matchedScore v' ≤ length (excerptTokens cmcContext)
  ∧ hasJumped v' = true
  ∧ jumpButtonShown v' = true.
Proof.
  unfold autoDetect.
  destruct (document ≫= pages) as [[|p ps]|]; [done| |done].
  destruct (falsy cmcContext); [done|].
  cbn [normalize]. rewrite detectLoop_locateLoop.
  fold (excerptTokens cmcContext).
  pose proof (locateLoop_score_le (excerptTokens cmcContext) (p :: ps) None 0
                ltac:(lia)) as Hle.
  destruct (locateLoop (excerptTokens cmcContext) (p :: ps) (None, 0))
    as [bestPage bestScore]. cbn [snd] in Hle. cbn [negb].
  destruct (truthyPage bestPage && (5 <=? bestScore) && true) eqn:Hjump; [|done].
  intros [= <- ->].
  apply andb_prop in Hjump as [[Htruthy Hfive]%andb_prop _].
  apply Nat.leb_le in Hfive. cbn [truthyPage] in Htruthy.
  apply negb_true_iff, Z.eqb_neq in Htruthy.
  unfold jumpButtonShown. cbn [matchedPage matchedScore hasJumped truthyPage].
  repeat split; try done.
  apply andb_true_intro. split.
  - by apply negb_true_iff, Z.eqb_neq.
  - apply Nat.leb_le. lia.
Qed.

Lemma autoDetect_jump_needs_five_tokens_example :
  let doc := Some {| num_pages := 2;
                     pages := Some [ {| page_number := 1; text := Some "contents" |};
                                     {| page_number := 2;
                                        text := Some "Stability studies showed impurity profiles within accepted specification limits" |} ] |} in
  let ctx := Some "stability studies impurity profiles accepted specification" in
  ∃ v', autoDetect doc ctx initialViewer = Normal (v', Some 2%Z)
        ∧ 5 ≤ matchedScore v'.
Proof.
  intros doc ctx.
  assert (Hrun : ∃ v', autoDetect doc ctx initialViewer = Normal (v', Some 2%Z))
    by (vm_compute; eauto).
  destruct Hrun as [v' Hrun]. exists v'. split; [exact Hrun|].
  exact (proj1 (proj2 (proj2
           (autoDetect_jump_needs_five_tokens doc ctx initialViewer v' 2 Hrun)))).
Defined.

End CmcViewerProps.

(** ** More on the cache key and the highlight cache *)

Module HighlightExtra.
Import Js Highlight HighlightInv Base36 Text.

(** *** Keys are base-36 numerals of the hash *)

Lemma digit36_value d :
  (0 ≤ d < 36)%Z → digitValue (digit36 d) = d ∧ isDigit36 (digit36 d) = true.
Proof.
  intros Hd. replace d with (Z.of_nat (Z.to_nat d)) by lia.
  assert (Hk : Z.to_nat d < 36) by lia. revert Hk.
  generalize (Z.to_nat d) as k. intros k Hk.
  do 36 (destruct k as [|k]; [vm_compute; split; reflexivity|]). lia.
Qed.

Lemma parse36From_app s1 : ∀ s2 acc,
  parse36From (s1 +:+ s2) acc = parse36From s2 (parse36From s1 acc).
Proof.
  induction s1 as [|c s1 IH]; intros s2 acc; [reflexivity|].
  rewrite DiffInlineProps.append_cons. cbn [parse36From]. apply IH.
Qed.

Lemma allChars_app P s1 : ∀ s2,
  allChars P (s1 +:+ s2) = allChars P s1 && allChars P s2.
Proof.
  induction s1 as [|c s1 IH]; intros s2; [reflexivity|].
  rewrite DiffInlineProps.append_cons. cbn [allChars].
  by rewrite IH, andb_assoc.
Qed.

Lemma length_append s1 : ∀ s2,
  String.length (s1 +:+ s2) = String.length s1 + String.length s2.
Proof.
  induction s1 as [|c s1 IH]; intros s2; [reflexivity|].
  rewrite DiffInlineProps.append_cons. cbn [String.length]. by rewrite IH.
Qed.

(** The digit loop writes a non-empty numeral in front of [acc]; read
    back, the numeral gives the number. *)
Lemma toString36From_digits fuel : ∀ n acc,
  (0 ≤ n < 36 ^ Z.of_nat (S fuel))%Z →
  ∃ ds,
    toString36From (S fuel) n acc = ds +:+ acc
    ∧ 1 ≤ String.length ds ≤ S fuel
    ∧ allChars isDigit36 ds = true
    ∧ ∀ a, parse36From ds a = (a * 36 ^ Z.of_nat (String.length ds) + n)%Z.
Proof.
  induction fuel as [|fuel IH]; intros n acc Hn.
  - exists (String (digit36 (n mod 36)) "").
    change (36 ^ Z.of_nat 1)%Z with 36%Z in Hn.
    cbn [toString36From]. rewrite Z.div_small by lia.
    rewrite Z.mod_small by lia.
    destruct (digit36_value n Hn) as [Hval Hdig].
    repeat split; cbn; [lia | lia | by rewrite Hdig | intros a; rewrite Hval; lia].
  - change (toString36From (S (S fuel)) n acc)
      with (let acc' := String (digit36 (n mod 36)) acc in
            if (n / 36 =? 0)%Z then acc'
            else toString36From (S fuel) (n / 36) acc').
    cbv zeta.
    assert (Hmod : (0 ≤ n mod 36 < 36)%Z) by (apply Z.mod_pos_bound; lia).
    destruct (digit36_value _ Hmod) as [Hval Hdig].
    destruct (Z.eqb_spec (n / 36) 0) as [Hq|Hq].
    + exists (String (digit36 (n mod 36)) "").
      repeat split; cbn; [lia | lia | by rewrite Hdig |].
      intros a. rewrite Hval.
      pose proof (Z.div_mod n 36 ltac:(lia)). lia.
    + destruct (IH (n / 36)%Z (String (digit36 (n mod 36)) acc))
        as (ds & Hds & Hlen & Hall & Hparse).
      { split; [apply Z.div_pos; lia|].
        apply Z.div_lt_upper_bound; [lia|].
        rewrite <- Z.pow_succ_r by lia. rewrite <- Nat2Z.inj_succ. lia. }
      exists (ds +:+ String (digit36 (n mod 36)) "").
      rewrite Hds. split.
      { by rewrite DiffInlineProps.append_assoc. }
      rewrite length_append, allChars_app, Hall. cbn [String.length allChars].
      rewrite Hdig. split; [lia|]. split; [reflexivity|].
      intros a. rewrite parse36From_app, Hparse. cbn [parse36From].
      rewrite Hval. replace (String.length ds + 1) with (S (String.length ds)) by lia.
      rewrite Nat2Z.inj_succ, Z.pow_succ_r by lia.
      pose proof (Z.div_mod n 36 ltac:(lia)). lia.
Qed.

Lemma hashKey_numeral str :
  1 ≤ String.length (hashKey str) ≤ 7
  ∧ allChars isDigit36 (hashKey str) = true
  ∧ parse36 (hashKey str) = toUint32 (hashLoop str 5381).
Proof.
  unfold hashKey, toString36.
  destruct (toString36From_digits 6 (toUint32 (hashLoop str 5381)) "")
    as (ds & Hds & Hlen & Hall & Hparse); [apply HighlightProps.toUint32_range|].
  rewrite Hds, DiffInlineProps.append_empty_r.
  repeat split; [lia | lia | exact Hall |].
  unfold parse36. rewrite Hparse. lia.
Qed.

(** X6.  A cache key is a numeral of one to seven base-36 digits
    ([0-9a-z]) that reads back as the unsigned 32-bit hash; so two
    excerpts share a key exactly when their 32-bit hashes are equal. *)
Theorem hashKey_is_base36_of_hash (s1 s2 : string) :
  1 ≤ String.length (hashKey s1) ≤ 7
  ∧ allChars isDigit36 (hashKey s1) = true
  ∧ parse36 (hashKey s1) = toUint32 (hashLoop s1 5381)
  ∧ (hashKey s1 = hashKey s2
     ↔ toUint32 (hashLoop s1 5381) = toUint32 (hashLoop s2 5381)).
Proof.
  destruct (hashKey_numeral s1) as (Hlen & Hall & Hparse).
  repeat split; try assumption; try lia.
  - intros Hkey. rewrite <- Hparse, Hkey. apply hashKey_numeral.
  - intros Hhash. unfold hashKey. by rewrite Hhash.
Qed.

(** *** Two excerpts under one key *)

(** X7.  The cache cannot tell apart two excerpts with the same key:
    once the answer for one is stored, a call with the other returns
    without posting and puts the first excerpt's object URL on
    display. *)
Theorem same_key_serves_other_excerpt
    (app : App) (req : nat) (s1 s2 : string) (objectUrl : string) :
  hashKey s1 = hashKey s2 →
  20 ≤ String.length s2 →
  inflight app !! req = Some s1 →
  ∃ app',
    resumeHighlight req (Blob objectUrl) app = Some (app', Fulfilled)
    ∧ highlightCache app' !! hashKey s2
      = Some {| blobUrl := objectUrl; text := s1 |}
    ∧ snd (handleHighlightSection (Some s2) app') = Returned
    ∧ posted (fst (handleHighlightSection (Some s2) app')) = posted app
    ∧ pdfBlobUrl (fst (handleHighlightSection (Some s2) app')) = objectUrl.
Proof.
  intros Hkey Hlen Hreq. unfold resumeHighlight. rewrite Hreq.
  eexists. split; [reflexivity|].
  assert (Hhit : <[hashKey s1 := {| blobUrl := objectUrl; text := s1 |}]>
                   (highlightCache app) !! hashKey s2
                 = Some {| blobUrl := objectUrl; text := s1 |})
    by (rewrite <- Hkey; apply lookup_insert_eq).
  split; [exact Hhit|].
  erewrite HighlightProps.handleHighlightSection_hit;
    [| exact Hlen | exact Hhit].
  cbn [fst snd posted pdfBlobUrl blobUrl]. repeat split.
Qed.

Lemma same_key_serves_other_excerpt_example :
  let s1 := "stability data for batch b6" in
  let s2 := "stability data for batch dp" in
  let app := fst (handleHighlightSection (Some s1) initialApp) in
  s1 ≠ s2
  ∧ hashKey s1 = hashKey s2
  ∧ ∃ app',
      resumeHighlight 0 (Blob "blob:b6") app = Some (app', Fulfilled)
      ∧ posted (fst (handleHighlightSection (Some s2) app')) = [s1]
      ∧ pdfBlobUrl (fst (handleHighlightSection (Some s2) app')) = "blob:b6".
Proof.
  intros s1 s2 app.
  assert (Hkey : hashKey s1 = hashKey s2) by (vm_compute; reflexivity).
  assert (Hlen : 20 ≤ String.length s2) by (cbn; lia).
  assert (Hreq : inflight app !! 0 = Some s1) by (vm_compute; reflexivity).
  split; [discriminate|]. split; [exact Hkey|].
  destruct (same_key_serves_other_excerpt app 0 s1 s2 "blob:b6" Hkey Hlen Hreq)
    as (app' & Hres & _ & _ & Hposted & Hurl).
  exists app'. repeat split; assumption.
Defined.

(** *** Invariants of the interleavings *)

Lemma handleHighlightSection_cases sectionText app :
  fst (handleHighlightSection sectionText app) = app
  ∨ (∃ cached,
       belowThreshold sectionText = false
       ∧ highlightCache app !! hashKey (orEmpty sectionText) = Some cached
       ∧ fst (handleHighlightSection sectionText app)
         = {| highlightCache := highlightCache app;
              pdfBlobUrl := blobUrl cached;
              isHighlighting := false;
              inflight := inflight app;
              posted := posted app;
              timers := timers app;
              consoleErrors := consoleErrors app |})
  ∨ (belowThreshold sectionText = false
     ∧ highlightCache app !! hashKey (orEmpty sectionText) = None
     ∧ fst (handleHighlightSection sectionText app)
       = {| highlightCache := highlightCache app;
            pdfBlobUrl := pdfBlobUrl app;
            isHighlighting := true;
            inflight := <[length (posted app) := orEmpty sectionText]> (inflight app);
            posted := posted app ++ [orEmpty sectionText];
            timers := timers app;
            consoleErrors := consoleErrors app |}).
Proof.
  unfold handleHighlightSection.
  destruct (belowThreshold sectionText) eqn:Hgate; [by left|].
  destruct (highlightCache app !! hashKey (orEmpty sectionText)) as [cached|] eqn:Hc.
  - right. left. by exists cached.
  - right. right. done.
Qed.

Lemma belowThreshold_false_length sectionText :
  belowThreshold sectionText = false → 20 ≤ String.length (orEmpty sectionText).
Proof.
  unfold belowThreshold. intros [_ Hlen]%orb_false_elim.
  by apply Nat.ltb_ge in Hlen.
Qed.

Lemma step_Call_inv sectionText app app' :
  step app (Call sectionText) = Some app' →
  app' = fst (handleHighlightSection sectionText app).
Proof. unfold step. by intros [= <-]. Qed.

Lemma step_Respond_inv req resp app app' :
  step app (Respond req resp) = Some app' →
  ∃ s,
    inflight app !! req = Some s
    ∧ app' = match resp with
             | Blob objectUrl =>
                 {| highlightCache :=
                      <[hashKey s := {| blobUrl := objectUrl; text := s |}]>
                        (highlightCache app);
                    pdfBlobUrl := objectUrl;
                    isHighlighting := isHighlighting app;
                    inflight := delete req (inflight app);
                    posted := posted app;
                    timers := S (timers app);
                    consoleErrors := consoleErrors app |}
             | NetworkError =>
                 {| highlightCache := highlightCache app;
                    pdfBlobUrl := pdfBlobUrl app;
                    isHighlighting := isHighlighting app;
                    inflight := delete req (inflight app);
                    posted := posted app;
                    timers := S (timers app);
                    consoleErrors := S (consoleErrors app) |}
             end.
Proof.
  unfold step, resumeHighlight.
  destruct (inflight app !! req) as [s|]; [|done].
  cbn [fmap option_fmap option_map fst]. intros [= <-]. by exists s.
Qed.

Lemma step_Timer_inv app app' :
  step app Timer = Some app' →
  highlightCache app' = highlightCache app
  ∧ inflight app' = inflight app
  ∧ posted app' = posted app
  ∧ isHighlighting app' = false.
Proof.
  unfold step, timerFires. destruct (timers app); [done|].
  by intros [= <-].
Qed.

Lemma step_cacheConsistent app e app' :
  step app e = Some app' →
  inflightConsistent app → cacheConsistent app → cacheConsistent app'.
Proof.
  intros Hstep Hin Hcache. destruct e as [sectionText | req resp |].
  - apply step_Call_inv in Hstep as ->.
    destruct (handleHighlightSection_cases sectionText app)
      as [-> | [(cached & _ & _ & ->) | (_ & _ & ->)]]; exact Hcache.
  - apply step_Respond_inv in Hstep as (s & Hreq & ->).
    destruct resp as [objectUrl|]; [|exact Hcache].
    intros key entry. cbn [highlightCache]. rewrite lookup_insert.
    case_decide as Hk.
    + intros [= <-]. cbn [text]. split; [by rewrite Hk | by apply (Hin req)].
    + apply Hcache.
  - apply step_Timer_inv in Hstep as (Hc & _).
    intros key entry. rewrite Hc. apply Hcache.
Qed.

Lemma step_inflightConsistent app e app' :
  step app e = Some app' → inflightConsistent app → inflightConsistent app'.
Proof.
  intros Hstep Hin. destruct e as [sectionText | req resp |].
  - apply step_Call_inv in Hstep as ->.
    destruct (handleHighlightSection_cases sectionText app)
      as [-> | [(cached & _ & _ & ->) | (Hgate & _ & ->)]]; try exact Hin.
    intros req s. cbn [inflight posted]. rewrite lookup_insert.
    case_decide as Hk.
    + intros [= <-]. subst req. split.
      * rewrite lookup_app_r by lia. by rewrite Nat.sub_diag.
      * by apply belowThreshold_false_length.
    + intros Hreq. destruct (Hin _ _ Hreq) as [Hposted Hlen].
      split; [|exact Hlen]. by apply lookup_app_l_Some.
  - apply step_Respond_inv in Hstep as (s & Hreq & ->).
    intros req' s'. destruct resp; cbn [inflight posted];
      rewrite lookup_delete; case_decide; try done; apply Hin.
  - apply step_Timer_inv in Hstep as (_ & Hi & Hp & _).
    intros req s. rewrite Hi, Hp. apply Hin.
Qed.

Lemma step_indicatorBacked app e app' :
  step app e = Some app' → indicatorBacked app → indicatorBacked app'.
Proof.
  intros Hstep Hind. destruct e as [sectionText | req resp |].
  - apply step_Call_inv in Hstep as ->.
    destruct (handleHighlightSection_cases sectionText app)
      as [-> | [(cached & _ & _ & ->) | (_ & _ & ->)]]; [exact Hind|done|].
    intros _. left. cbn [inflight]. apply insert_non_empty.
  - apply step_Respond_inv in Hstep as (s & Hreq & ->).
    intros _. right. destruct resp; cbn [timers]; lia.
  - apply step_Timer_inv in Hstep as (_ & _ & _ & Hoff).
    intros Hon. congruence.
Qed.

Lemma run_invariants events : ∀ app app',
  run app events = Some app' →
  inflightConsistent app ∧ cacheConsistent app ∧ indicatorBacked app →
  inflightConsistent app' ∧ cacheConsistent app' ∧ indicatorBacked app'.
Proof.
  induction events as [|e events IH]; intros app app'; cbn.
  - by intros [= <-].
  - destruct (step app e) as [app1|] eqn:Hstep; cbn; [|done].
    intros Hrun (Hin & Hcache & Hind). apply (IH _ _ Hrun).
    split; [|split].
    + by apply (step_inflightConsistent _ _ _ Hstep).
    + by apply (step_cacheConsistent _ _ _ Hstep).
    + by apply (step_indicatorBacked _ _ _ Hstep).
Qed.

Lemma initialApp_invariants :
  inflightConsistent initialApp ∧ cacheConsistent initialApp
  ∧ indicatorBacked initialApp.
Proof.
  split; [|split].
  - intros req s Hreq. cbn in Hreq. by rewrite lookup_empty in Hreq.
  - intros key entry Hkey. cbn in Hkey. by rewrite lookup_empty in Hkey.
  - intros Hon. discriminate.
Qed.

(** X8.  Whatever the interleaving of calls, answers and timers from
    the initial state: every cache entry is stored under the key of its
    own text, every stored or awaited text has at least 20 characters,
    and every awaited request is a post that was made with that text. *)
Theorem cache_and_inflight_consistent (events : list Event) (app : App) :
  run initialApp events = Some app →
  cacheConsistent app ∧ inflightConsistent app.
Proof.
  intros Hrun.
  destruct (run_invariants _ _ _ Hrun initialApp_invariants) as (Hin & Hcache & _).
  by split.
Qed.

Lemma cache_and_inflight_consistent_example :
  let a := "first excerpt of the document" in
  let b := "second excerpt of the document" in
  ∃ app,
    run initialApp [Call (Some a); Call (Some b); Respond 1 (Blob "blob:B")]
    = Some app
    ∧ cacheConsistent app ∧ inflightConsistent app.
Proof.
  intros a b.
  assert (Hrun : ∃ app, run initialApp
                          [Call (Some a); Call (Some b); Respond 1 (Blob "blob:B")]
                        = Some app) by (vm_compute; eauto).
  destruct Hrun as [app Hrun]. exists app. split; [exact Hrun|].
  exact (cache_and_inflight_consistent _ _ Hrun).
Defined.

(** X9.  The highlighting indicator never stays on for nothing: in
    every state reached from the initial one, if [isHighlighting] is on
    then a request is still awaited or a timer that clears it is still
    set. *)
Theorem indicator_is_backed (events : list Event) (app : App) :
  run initialApp events = Some app →
  isHighlighting app = true →
  inflight app ≠ ∅ ∨ 0 < timers app.
Proof.
  intros Hrun.
  destruct (run_invariants _ _ _ Hrun initialApp_invariants) as (_ & _ & Hind).
  exact Hind.
Qed.

Lemma indicator_is_backed_example :
  let a := "first excerpt of the document" in
  ∃ app,
    run initialApp [Call (Some a); Respond 0 NetworkError] = Some app
    ∧ isHighlighting app = true
    ∧ (inflight app ≠ ∅ ∨ 0 < timers app).
Proof.
  intros a.
  assert (Hrun : ∃ app, run initialApp [Call (Some a); Respond 0 NetworkError]
                        = Some app ∧ isHighlighting app = true)
    by (vm_compute; eauto).
  destruct Hrun as (app & Hrun & Hon). exists app.
  split; [exact Hrun|]. split; [exact Hon|].
  exact (indicator_is_backed _ _ Hrun Hon).
Defined.

(** X10.  Entries are never evicted by calls, answers or timers: once
    an excerpt has an entry, every later call for it, after any
    interleaving, finds an entry and returns without posting. *)
Theorem stored_excerpt_is_never_requested_again
    (app : App) (events : list Event) (app' : App) (s : string) :
  is_Some (highlightCache app !! hashKey s) →
  run app events = Some app' →
  is_Some (highlightCache app' !! hashKey s)
  ∧ snd (handleHighlightSection (Some s) app') = Returned
  ∧ posted (fst (handleHighlightSection (Some s) app')) = posted app'
  ∧ inflight (fst (handleHighlightSection (Some s) app')) = inflight app'.
Proof.
  intros Hkey Hrun.
  pose proof (HighlightProps.run_cache_keeps _ _ _ _ Hrun Hkey) as Hkept.
  split; [exact Hkept|]. destruct Hkept as [cached Hcached].
  rewrite (HighlightProps.handleHighlightSection_entry _ _ _ Hcached).
  by destruct (String.length s <? 20).
Qed.

Lemma stored_excerpt_is_never_requested_again_example :
  let a := "first excerpt of the document" in
  let b := "second excerpt of the document" in
  let app := {| highlightCache := {[ hashKey a := {| blobUrl := "blob:A"; text := a |} ]};
                pdfBlobUrl := "blob:A";
                isHighlighting := false;
                inflight := ∅;
                posted := [a];
                timers := 0;
                consoleErrors := 0 |} in
  ∃ app',
    run app [Call (Some b); Respond 1 (Blob "blob:B"); Timer] = Some app'
    ∧ posted (fst (handleHighlightSection (Some a) app')) = [a; b].
Proof.
  intros a b app.
  assert (Hkey : is_Some (highlightCache app !! hashKey a))
    by (eexists; apply lookup_singleton_eq).
  assert (Hrun : ∃ app', run app [Call (Some b); Respond 1 (Blob "blob:B"); Timer]
                         = Some app' ∧ posted app' = [a; b])
    by (vm_compute; eauto).
  destruct Hrun as (app' & Hrun & Hposted). exists app'.
  split; [exact Hrun|].
  destruct (stored_excerpt_is_never_requested_again app _ app' a Hkey Hrun)
    as (_ & _ & Hsame & _).
  by rewrite Hsame.
Defined.

End HighlightExtra.

(** ** Comment list, batch navigation, unload *)

Module ReviewProps.
Import Js Locator Review.

(** *** The comment list *)

Lemma composerStep_comments c e :
  Forall wellFormed (comments c) → Forall wellFormed (comments (composerStep c e)).
Proof.
  intros Hall. destruct e as [value| |]; cbn; [exact Hall| |constructor].
  unfold handleAddComment.
  destruct (String.eqb_spec (trim (comment c)) "") as [|Hne]; [exact Hall|].
  cbn. apply Forall_app. split; [exact Hall|].
  repeat constructor; [exact Hne | apply NormalizeProps.trim_idem].
Qed.

Lemma fold_composerStep_comments events : ∀ c,
  Forall wellFormed (comments c) →
  Forall wellFormed (comments (fold_left composerStep events c)).
Proof.
  induction events as [|e events IH]; intros c Hall; cbn; [exact Hall|].
  by apply IH, composerStep_comments.
Qed.

(** X11.  Whatever is typed, added and cleared, the batch that
    [handleProcessBatch] posts is never empty and holds only comments
    that are not blank and carry no white space at either end. *)
Theorem batch_holds_trimmed_comments
    (events : list ComposerEvent) (batch : list string) :
  handleProcessBatch (composerRun events) = Some batch →
  batch ≠ []
  ∧ Forall (fun c => c ≠ "" ∧ trim c = c) batch.
Proof.
  unfold handleProcessBatch, composerRun. intros Hbatch.
  pose proof (fold_composerStep_comments events initialComposer
                ltac:(constructor)) as Hall.
  destruct (comments (fold_left composerStep events initialComposer))
    as [|c cs]; [discriminate|].
  injection Hbatch as <-. split; [discriminate | exact Hall].
Qed.

Lemma batch_holds_trimmed_comments_example :
  let events := [ChangeComment "  update the shelf life  "; AddComment;
                 ChangeComment "   "; AddComment] in
  handleProcessBatch (composerRun events) = Some ["update the shelf life"]
  ∧ Forall (fun c => c ≠ "" ∧ trim c = c) ["update the shelf life"].
Proof.
  intros events.
  assert (Hrun : handleProcessBatch (composerRun events)
                 = Some ["update the shelf life"]) by (vm_compute; reflexivity).
  split; [exact Hrun|].
  exact (proj2 (batch_holds_trimmed_comments _ _ Hrun)).
Defined.

(** *** Batch navigation *)

Lemma indexAfter_showResult documentData batchResults index idx :
  indexAfter (showResult documentData batchResults index) idx = idx.
Proof.
  unfold showResult.
  destruct (batchResults !! index ≫= llm_result) as [llm|]; [|reflexivity].
  destruct (20 <? _); [|reflexivity]. cbn.
  destruct (detectMatchedPage _ documentData) as [page|]; [|reflexivity].
  by destruct (page =? 0)%Z.
Qed.

Lemma indexAfter_next documentData batchResults n :
  indexAfter (handleNextResult documentData batchResults (Some n)) (Some n)
  = Some (if bool_decide (S n < length batchResults) then S n else n).
Proof.
  unfold handleNextResult. cbn [toNumber].
  case_bool_decide as Hlt.
  - destruct (Z.ltb_spec (Z.of_nat n) (Z.of_nat (length batchResults) - 1));
      [|lia].
    cbn [indexAfter fold_left]. fold (indexAfter
      (showResult documentData batchResults (Z.to_nat (Z.of_nat n + 1)))
      (Some (Z.to_nat (Z.of_nat n + 1)))).
    rewrite indexAfter_showResult. f_equal. lia.
  - destruct (Z.ltb_spec (Z.of_nat n) (Z.of_nat (length batchResults) - 1));
      [lia|reflexivity].
Qed.

Lemma indexAfter_prev documentData batchResults n :
  indexAfter (handlePrevResult documentData batchResults (Some n)) (Some n)
  = Some (n - 1).
Proof.
  unfold handlePrevResult. cbn [toNumber].
  destruct (Z.ltb_spec 0 (Z.of_nat n)).
  - cbn [indexAfter fold_left]. fold (indexAfter
      (showResult documentData batchResults (Z.to_nat (Z.of_nat n - 1)))
      (Some (Z.to_nat (Z.of_nat n - 1)))).
    rewrite indexAfter_showResult. f_equal. lia.
  - cbn. f_equal. lia.
Qed.

(** X12.  Navigation keeps the current result inside the batch: from an
    index in range, "next" moves one up unless it is the last, "previous"
    moves one down unless it is the first, and the index stays in
    range; "previous" after a "next" that moved comes back. *)
Theorem navigation_stays_in_range
    (documentData : option DocumentData) (batchResults : list BatchResult)
    (n : nat) :
  n < length batchResults →
  ∃ up down,
    indexAfter (handleNextResult documentData batchResults (Some n)) (Some n)
    = Some up
    ∧ indexAfter (handlePrevResult documentData batchResults (Some n)) (Some n)
      = Some down
    ∧ up < length batchResults ∧ down < length batchResults
    ∧ up = (if bool_decide (S n < length batchResults) then S n else n)
    ∧ down = n - 1
    ∧ indexAfter (handlePrevResult documentData batchResults (Some (S n)))
                 (Some (S n)) = Some n.
Proof.
  intros Hn. eexists _, _.
  rewrite indexAfter_next, !indexAfter_prev.
  repeat split; try lia; [|f_equal; lia].
  case_bool_decide; lia.
Qed.

Lemma navigation_stays_in_range_example :
  let results := [ {| llm_result := None |}; {| llm_result := None |};
                   {| llm_result := None |} ] in
  ∃ up,
    indexAfter (handleNextResult None results (Some 2)) (Some 2) = Some up
    ∧ up < 3.
Proof.
  intros results.
  destruct (navigation_stays_in_range None results 2)
    as (up & down & Hup & _ & Hrange & _); [cbn; lia|].
  exists up. split; [exact Hup | exact Hrange].
Defined.

(** X13.  The buttons of CommentPanel agree with the handlers of App:
    "Next" is enabled exactly when [handleNextResult] does something,
    and an enabled "Previous" always moves. *)
Theorem buttons_agree_with_handlers
    (documentData : option DocumentData) (batchResults : list BatchResult)
    (currentResultIndex : option nat) :
  (hasNext batchResults currentResultIndex = true
   ↔ handleNextResult documentData batchResults currentResultIndex ≠ [])
  ∧ (hasPrev batchResults currentResultIndex = true
     → handlePrevResult documentData batchResults currentResultIndex ≠ []).
Proof.
  unfold hasNext, hasPrev, handleNextResult, handlePrevResult. split.
  - destruct (Z.ltb_spec (toNumber currentResultIndex)
                         (Z.of_nat (length batchResults) - 1)) as [Hlt|Hge].
    + assert (0 ≤ toNumber currentResultIndex)%Z
        by (destruct currentResultIndex; cbn; lia).
      destruct (Nat.ltb_spec 0 (length batchResults)); [|lia].
      split; [discriminate | reflexivity].
    + rewrite andb_false_r. split; [discriminate | congruence].
  - intros [_ Hpos]%andb_prop. rewrite Hpos. discriminate.
Qed.

Lemma showResult_effects documentData batchResults index e :
  e ∈ showResult documentData batchResults index →
  ∃ s,
    HighlightSection s ∈ showResult documentData batchResults index
    ∧ 20 < String.length s
    ∧ (e = HighlightSection s
       ∨ ∃ page, e = SetCurrentPdfPage page ∧ page ≠ 0%Z
                 ∧ detectMatchedPage (Some s) documentData = Some page).
Proof.
  unfold showResult.
  destruct (batchResults !! index ≫= llm_result) as [llm|];
    [|by intros ?%elem_of_nil].
  destruct (Nat.ltb_spec 20 (String.length (orEmpty (cmc_context_used llm))))
    as [Hlen|_]; [|by intros ?%elem_of_nil].
  intros He. exists (orEmpty (cmc_context_used llm)).
  split; [by left|]. split; [exact Hlen|].
  apply elem_of_cons in He as [->|He]; [by left|]. right.
  destruct (detectMatchedPage _ documentData) as [page|];
    [|by apply elem_of_nil in He].
  destruct (Z.eqb_spec page 0); [by apply elem_of_nil in He|].
  apply list_elem_of_singleton in He as ->. by exists page.
Qed.

(** X14.  Whatever "next" and "previous" hand to
    [handleHighlightSection] is longer than 20 characters, so the call
    is never the silent no-op; and a page jump they make is to a page
    number other than 0 that [detectMatchedPage] found for that very
    excerpt. *)
Theorem navigation_effects
    (documentData : option DocumentData) (batchResults : list BatchResult)
    (currentResultIndex : option nat) (e : NavEffect) :
  e ∈ handleNextResult documentData batchResults currentResultIndex
  ∨ e ∈ handlePrevResult documentData batchResults currentResultIndex →
  match e with
  | SetCurrentResultIndex _ => True
  | HighlightSection s =>
      20 < String.length s ∧ Highlight.belowThreshold (Some s) = false
  | SetCurrentPdfPage page =>
      page ≠ 0%Z
      ∧ ∃ s, 20 < String.length s
             ∧ detectMatchedPage (Some s) documentData = Some page
  end.
Proof.
  assert (Hshow : ∀ index, e ∈ showResult documentData batchResults index →
            match e with
            | SetCurrentResultIndex _ => True
            | HighlightSection s =>
                20 < String.length s ∧ Highlight.belowThreshold (Some s) = false
            | SetCurrentPdfPage page =>
                page ≠ 0%Z
                ∧ ∃ s, 20 < String.length s
                       ∧ detectMatchedPage (Some s) documentData = Some page
            end).
  { intros index He.
    destruct (showResult_effects _ _ _ _ He)
      as (s & _ & Hlen & [-> | (page & -> & Hpage & Hdet)]).
    - split; [exact Hlen|]. apply HighlightProps.belowThreshold_long. lia.
    - split; [exact Hpage|]. by exists s. }
  unfold handleNextResult, handlePrevResult. intros [He|He].
  - destruct (_ <? _)%Z; [|by apply elem_of_nil in He].
    apply elem_of_cons in He as [->|He]; [exact I | by apply (Hshow _ He)].
  - destruct (_ <? _)%Z; [|by apply elem_of_nil in He].
    apply elem_of_cons in He as [->|He]; [exact I | by apply (Hshow _ He)].
Qed.

Lemma navigation_effects_example :
  let doc := Some {| num_pages := 1;
                     pages := Some [ {| page_number := 3;
                                        text := Some "Stability studies of the product" |} ] |} in
  let results := [ {| llm_result := None |};
                   {| llm_result := Some {| cmc_context_used :=
                        Some "stability studies were extended" |} |} ] in
  SetCurrentPdfPage 3 ∈ handleNextResult doc results (Some 0)
  ∧ ∃ s, detectMatchedPage (Some s) doc = Some 3%Z.
Proof.
  intros doc results.
  assert (Hin : SetCurrentPdfPage 3 ∈ handleNextResult doc results (Some 0))
    by (vm_compute; repeat constructor).
  split; [exact Hin|].
  destruct (navigation_effects doc results (Some 0) _ (or_introl Hin))
    as (_ & s & _ & Hdet).
  by exists s.
Defined.

(** *** The unload clean-up *)

(** X15.  The unload handler revokes the object URL of every cache
    entry, nothing else, and empties the cache: a call for an excerpt
    that had an entry posts again afterwards. *)
Theorem onUnload_revokes_and_clears
    (app : Highlight.App) (s : string) (entry : Highlight.CacheEntry) :
  20 ≤ String.length s →
  Highlight.highlightCache app !! Highlight.hashKey s = Some entry →
  Highlight.blobUrl entry ∈ fst (onUnload app)
  ∧ (∀ url, url ∈ fst (onUnload app) →
       ∃ key e, Highlight.highlightCache app !! key = Some e
                ∧ Highlight.blobUrl e = url)
  ∧ Highlight.highlightCache (snd (onUnload app)) = ∅
  ∧ snd (Highlight.handleHighlightSection (Some s) (snd (onUnload app)))
    = Highlight.Awaiting (length (Highlight.posted app)).
Proof.
  intros Hlen Hentry. unfold onUnload. cbn [fst snd]. split; [|split; [|split]].
  - apply list_elem_of_fmap. exists (Highlight.hashKey s, entry).
    split; [reflexivity|]. by apply elem_of_map_to_list.
  - intros url [[key e] [-> Hin]]%list_elem_of_fmap.
    apply elem_of_map_to_list in Hin. by exists key, e.
  - reflexivity.
  - rewrite HighlightProps.handleHighlightSection_miss;
      [reflexivity | exact Hlen | apply lookup_empty].
Qed.

Lemma onUnload_revokes_and_clears_example :
  let s := "first excerpt of the document" in
  let entry := {| Highlight.blobUrl := "blob:1"; Highlight.text := s |} in
  let app := {| Highlight.highlightCache := {[ Highlight.hashKey s := entry ]};
                Highlight.pdfBlobUrl := "blob:1";
                Highlight.isHighlighting := false;
                Highlight.inflight := ∅;
                Highlight.posted := [s];
                Highlight.timers := 0;
                Highlight.consoleErrors := 0 |} in
  "blob:1" ∈ fst (onUnload app)
  ∧ snd (Highlight.handleHighlightSection (Some s) (snd (onUnload app)))
    = Highlight.Awaiting 1.
Proof.
  intros s entry app.
  destruct (onUnload_revokes_and_clears app s entry) as (Hin & _ & _ & Hcall).
  - cbn. lia.
  - apply lookup_singleton_eq.
  - split; [exact Hin | exact Hcall].
Defined.

End ReviewProps.

(** ** More on DiffInline: decisions, first render, what is shown *)

Module DiffInlineExtra.
Import Js DiffInline DiffRender.

(** A write leaves every other slot as it reads. *)
Lemma stateAt_arraySet_ne idx v arr j :
  j ≠ idx → stateAt (arraySet idx v arr) j = stateAt arr j.
Proof.
  intros Hne. unfold stateAt, arraySet. case_bool_decide as Hlt.
  - by rewrite list_lookup_insert_ne.
  - destruct (decide (j < length arr)) as [Hj|Hj].
    + by rewrite lookup_app_l.
    + rewrite (lookup_ge_None_2 arr j) by lia.
      rewrite lookup_app_r by lia.
      destruct (decide (j - length arr < idx - length arr)) as [Hpad|Hpad].
      * rewrite lookup_app_l by (rewrite length_replicate; lia).
        by rewrite lookup_replicate_2.
      * rewrite lookup_app_r by (rewrite length_replicate; lia).
        rewrite length_replicate.
        rewrite lookup_ge_None_2; [reflexivity|]. cbn. lia.
Qed.

Lemma computeFinalText_pieces segs states :
  computeFinalText segs states
  = joinTexts (imap (fun i seg => segmentText seg (stateAt states i)) segs).
Proof.
  unfold computeFinalText. rewrite DiffInlineProps.forEachSegment_join.
  reflexivity.
Qed.

Lemma segmentText_rejected_pending seg :
  segmentText seg (Some "rejected") = segmentText seg (Some "pending").
Proof.
  unfold segmentText.
  destruct (String.eqb (op seg) "equal"); [reflexivity|].
  destruct (String.eqb (op seg) "delete"); [reflexivity|].
  destruct (String.eqb (op seg) "replace"); [reflexivity|].
  by destruct (String.eqb (op seg) "insert").
Qed.

(** X16.  Rejecting a pending change never alters the final text:
    pending and rejected segments contribute the same. *)
Theorem reject_pending_keeps_final_text
    (diffSegments : list DiffSegment) (states : States) (idx : nat) :
  stateAt states idx = Some "pending" →
  computeFinalText diffSegments (updateState idx "rejected" states)
  = computeFinalText diffSegments states.
Proof.
  intros Hpending. rewrite !computeFinalText_pieces. f_equal.
  apply imap_ext. intros i seg _. cbn beta.
  destruct (decide (i = idx)) as [->|Hne].
  - rewrite DiffInlineProps.updateState_records, Hpending.
    apply segmentText_rejected_pending.
  - unfold updateState. by rewrite stateAt_arraySet_ne.
Qed.

Lemma reject_pending_keeps_final_text_example :
  let segs := [ {| op := "equal"; orig := Some "A "; suggested := None |};
                {| op := "replace"; orig := Some "B"; suggested := Some "C" |} ] in
  stateAt (initStates segs) 1 = Some "pending"
  ∧ computeFinalText segs (updateState 1 "rejected" (initStates segs)) = "A B".
Proof.
  intros segs.
  assert (Hp : stateAt (initStates segs) 1 = Some "pending") by reflexivity.
  split; [exact Hp|].
  rewrite (reject_pending_keeps_final_text segs (initStates segs) 1 Hp).
  reflexivity.
Defined.

(** X17.  With an empty decision array, as the effect finds it on the
    first render before [setStates] has taken effect, every [delete]
    counts as applied: the text reported keeps the original span of
    [equal], [replace] and unrecognised segments and nothing of [delete]
    and [insert] segments. *)
Theorem first_render_drops_deletes (diffSegments : list DiffSegment) :
  computeFinalText diffSegments []
  = joinTexts ((fun seg =>
                  if String.eqb (op seg) "delete" || String.eqb (op seg) "insert"
                  then "" else originalSpan seg) <$> diffSegments)
  ∧ finalTextEffect true diffSegments []
    = match diffSegments with
      | [] => None
      | _ => Some (computeFinalText diffSegments [])
      end.
Proof.
  split.
  - rewrite computeFinalText_pieces, <- imap_const. f_equal.
    apply imap_ext. intros i seg _. cbn beta.
    unfold const, segmentText, stateAt. rewrite lookup_nil. cbn [mjoin option_join isState orb].
    destruct (String.eqb_spec (op seg) "equal") as [->|_]; [reflexivity|].
    destruct (String.eqb (op seg) "delete"); [reflexivity|].
    destruct (String.eqb (op seg) "replace") eqn:Hr.
    + apply String.eqb_eq in Hr. by rewrite Hr.
    + by destruct (String.eqb (op seg) "insert").
  - unfold finalTextEffect. by destruct diffSegments.
Qed.

(** *** After a decision *)

Lemma segmentControls_fst idx seg st c :
  c ∈ segmentControls idx seg st → c.1 = idx.
Proof.
  destruct c as [i newState]. intros Hin.
  by destruct (DiffInlineProps.segmentControls_elem _ _ _ _ _ Hin) as [-> _].
Qed.

Lemma segmentControls_decided idx seg newState :
  newState = "accepted" ∨ newState = "rejected" →
  segmentControls idx seg (Some newState) = [].
Proof.
  intros Hns. unfold segmentControls.
  destruct (String.eqb (op seg) "equal"); [reflexivity|].
  destruct (_ || _ || _); [|reflexivity].
  by destruct Hns as [-> | ->].
Qed.

Lemma filter_controls_other idx j (l : list (nat * string)) :
  (∀ c, c ∈ l → c.1 = j) → j ≠ idx →
  filter (fun c => c.1 ≠ idx) l = l.
Proof.
  intros Hall Hne. induction l as [|c l IH]; [reflexivity|].
  rewrite filter_cons, decide_True.
  - f_equal. apply IH. intros c' Hc'. apply Hall. by right.
  - rewrite (Hall c) by (by left). exact Hne.
Qed.

Lemma filter_controls_same idx (l : list (nat * string)) :
  (∀ c, c ∈ l → c.1 = idx) → filter (fun c => c.1 ≠ idx) l = [].
Proof.
  intros Hall. induction l as [|c l IH]; [reflexivity|].
  rewrite filter_cons, decide_False.
  - apply IH. intros c' Hc'. apply Hall. by right.
  - intros Hc. apply Hc, Hall. by left.
Qed.

Lemma mapControls_updateState states idx newState segs : ∀ k,
  newState = "accepted" ∨ newState = "rejected" →
  mapControls (updateState idx newState states) k segs
  = filter (fun c => c.1 ≠ idx) (mapControls states k segs).
Proof.
  induction segs as [|seg rest IH]; intros k Hns; [reflexivity|].
  cbn [mapControls]. rewrite filter_app, IH by exact Hns. f_equal.
  destruct (decide (k = idx)) as [->|Hne].
  - rewrite DiffInlineProps.updateState_records, segmentControls_decided by exact Hns.
    symmetry. apply filter_controls_same. intros c. apply segmentControls_fst.
  - unfold updateState. rewrite stateAt_arraySet_ne by exact Hne.
    symmetry. apply (filter_controls_other idx k); [|exact Hne].
    intros c. apply segmentControls_fst.
Qed.

(** X18.  A decision is final in the UI: once a control has been
    pressed, the segment it belongs to shows no control any more, and
    the controls of all other segments are exactly what they were. *)
Theorem decision_removes_only_its_controls
    (diffSegments : list DiffSegment) (states : States)
    (idx : nat) (newState : string) :
  (idx, newState) ∈ renderControls diffSegments states →
  renderControls diffSegments (updateState idx newState states)
  = filter (fun c => c.1 ≠ idx) (renderControls diffSegments states).
Proof.
  intros Hin. unfold renderControls in *.
  destruct (DiffInlineProps.mapControls_elem _ _ _ _ _ Hin) as (seg & _ & _ & Hin').
  destruct (DiffInlineProps.segmentControls_elem _ _ _ _ _ Hin')
    as (_ & _ & Hns & _).
  by apply mapControls_updateState.
Qed.

Lemma decision_removes_only_its_controls_example :
  let segs := [ {| op := "delete"; orig := Some "A "; suggested := None |};
                {| op := "replace"; orig := Some "B"; suggested := Some "C" |} ] in
  (1, "accepted") ∈ renderControls segs (initStates segs)
  ∧ renderControls segs (updateState 1 "accepted" (initStates segs))
    = [(0, "accepted"); (0, "rejected")].
Proof.
  intros segs.
  assert (Hin : (1, "accepted") ∈ renderControls segs (initStates segs))
    by (vm_compute; repeat constructor).
  split; [exact Hin|].
  rewrite (decision_removes_only_its_controls segs (initStates segs) 1 _ Hin).
  vm_compute. reflexivity.
Defined.

(** *** What is shown against what is reported *)

Lemma joinTexts_app l1 l2 : joinTexts (l1 ++ l2) = joinTexts l1 +:+ joinTexts l2.
Proof.
  induction l1 as [|t l1 IH]; [reflexivity|].
  cbn [app joinTexts foldr]. fold (joinTexts (l1 ++ l2)). fold (joinTexts l1).
  by rewrite IH, DiffInlineProps.append_assoc.
Qed.

Lemma renderSegment_decided seg st :
  segmentControls 0 seg st = [] →
  shownText (renderSegment seg st) = segmentText seg st
  ∧ Forall (fun span => span.1 = Plain) (renderSegment seg st).
Proof.
  unfold segmentControls, renderSegment, segmentText, shownText.
  destruct (String.eqb (op seg) "equal").
  { intros _. split; [apply DiffInlineProps.append_empty_r | by repeat constructor]. }
  destruct (String.eqb (op seg) "delete") eqn:Hd; cbn [orb].
  { destruct (isState st "accepted") eqn:Ha; cbn [orb].
    - intros _. destruct (isState st "rejected") eqn:Hr.
      + apply DiffInlineProps.isState_eq in Ha, Hr. congruence.
      + assert (isState st "pending" = false) as ->.
        { apply DiffInlineProps.isState_other.
          apply DiffInlineProps.isState_eq in Ha. rewrite Ha. discriminate. }
        split; [reflexivity | constructor].
    - destruct (isState st "rejected"); [|discriminate]. intros _.
      split; [apply DiffInlineProps.append_empty_r | by repeat constructor]. }
  destruct (String.eqb (op seg) "replace") eqn:Hr; cbn [orb].
  { destruct (isState st "accepted"); cbn [orb].
    - intros _. split; [apply DiffInlineProps.append_empty_r | by repeat constructor].
    - destruct (isState st "rejected"); [|discriminate]. intros _.
      split; [apply DiffInlineProps.append_empty_r | by repeat constructor]. }
  destruct (String.eqb (op seg) "insert") eqn:Hi; cbn [orb].
  { destruct (isState st "accepted"); cbn [orb].
    - intros _. split; [apply DiffInlineProps.append_empty_r | by repeat constructor].
    - destruct (isState st "rejected"); [|discriminate]. intros _.
      split; [reflexivity | constructor]. }
  intros _. split; [apply DiffInlineProps.append_empty_r | by repeat constructor].
Qed.

Lemma segmentControls_nil_any idx seg st :
  segmentControls idx seg st = [] → segmentControls 0 seg st = [].
Proof.
  unfold segmentControls.
  destruct (String.eqb (op seg) "equal"); [done|].
  destruct (_ || _ || _); [|done].
  by destruct (_ || _).
Qed.

Lemma render_decided states segs : ∀ k finalText,
  mapControls states k segs = [] →
  forEachSegment states k segs finalText
  = finalText +:+ shownText (renderFrom states k segs)
  ∧ Forall (fun span => span.1 = Plain) (renderFrom states k segs).
Proof.
  induction segs as [|seg rest IH]; intros k finalText Hnone.
  - split; [by rewrite DiffInlineProps.append_empty_r | constructor].
  - cbn [mapControls] in Hnone. apply app_eq_nil in Hnone as [Hseg Hrest].
    destruct (renderSegment_decided seg (stateAt states k)
                (segmentControls_nil_any _ _ _ Hseg)) as [Htext Hplain].
    cbn [forEachSegment renderFrom].
    destruct (IH (S k) (finalText +:+ segmentText seg (stateAt states k)) Hrest)
      as [-> Hplain'].
    split; [|by apply Forall_app].
    unfold shownText in *. rewrite fmap_app, joinTexts_app, Htext.
    apply DiffInlineProps.append_assoc.
Qed.

(** X19.  Once no control is left on screen, what the component shows
    is what it reports: every span is plain text, and the spans' texts
    in order make up exactly the final text. *)
Theorem shown_text_is_final_text
    (diffSegments : list DiffSegment) (states : States) :
  renderControls diffSegments states = [] →
  shownText (render diffSegments states) = computeFinalText diffSegments states
  ∧ Forall (fun span => span.1 = Plain) (render diffSegments states).
Proof.
  intros Hnone. unfold render, computeFinalText.
  destruct (render_decided states diffSegments 0 "" Hnone) as [-> Hplain].
  by split.
Qed.

Lemma shown_text_is_final_text_example :
  let segs := [ {| op := "equal"; orig := Some "A "; suggested := None |};
                {| op := "replace"; orig := Some "B"; suggested := Some "C" |};
                {| op := "insert"; orig := Some ""; suggested := Some " D" |} ] in
  let states := [Some "accepted"; Some "accepted"; Some "rejected"] in
  renderControls segs states = []
  ∧ shownText (render segs states) = "A C".
Proof.
  intros segs states.
  assert (Hnone : renderControls segs states = []) by reflexivity.
  split; [exact Hnone|].
  rewrite (proj1 (shown_text_is_final_text segs states Hnone)).
  reflexivity.
Defined.

End DiffInlineExtra.

(** ** CommentPanel: escaped blocks, target page, anchors *)

Module CommentPanelProps.
Import Js Locator Text CommentPanel.

(** *** escapeHtml *)

Lemma allChars_append P s1 : ∀ s2,
  allChars P (s1 +:+ s2) = allChars P s1 && allChars P s2.
Proof.
  induction s1 as [|c s1 IH]; intros s2; [reflexivity|].
  rewrite DiffInlineProps.append_cons. cbn [allChars]. by rewrite IH, andb_assoc.
Qed.

(** Replacing [c] by a text that satisfies [Q] turns a text whose other
    characters satisfy [Q] into one that satisfies [Q] throughout. *)
Lemma allChars_replaceChar (P Q : ascii → bool) c rep s :
  allChars Q rep = true →
  (∀ a, Ascii.eqb a c = false → P a = true → Q a = true) →
  allChars P s = true ∨ (∀ a, Ascii.eqb a c = false → Q a = true) →
  allChars Q (replaceChar c rep s) = true.
Proof.
  intros Hrep Hother Hs. induction s as [|a s IH]; [reflexivity|].
  cbn [replaceChar]. destruct (Ascii.eqb a c) eqn:Ha.
  - rewrite allChars_append, Hrep. apply IH.
    destruct Hs as [Hs|Hs]; [|by right]. left.
    cbn [allChars] in Hs. by apply andb_prop in Hs as [_ Hs].
  - cbn [allChars]. apply andb_true_intro. split.
    + destruct Hs as [Hs|Hs]; [|by apply Hs].
      cbn [allChars] in Hs. apply andb_prop in Hs as [Hhead _]. by apply Hother.
    + apply IH. destruct Hs as [Hs|Hs]; [|by right]. left.
      cbn [allChars] in Hs. by apply andb_prop in Hs as [_ Hs].
Qed.

Lemma escapeHtml_noAngle s : noAngle (escapeHtml s) = true.
Proof.
  unfold noAngle, escapeHtml.
  apply (allChars_replaceChar
           (fun c => negb (Ascii.eqb c "<"))
           (fun c => negb (Ascii.eqb c "<" || Ascii.eqb c ">"))).
  - reflexivity.
  - intros a Hgt Hlt. apply negb_true_iff in Hlt. by rewrite Hlt, Hgt.
  - left. apply (allChars_replaceChar (fun _ => true)
                   (fun c => negb (Ascii.eqb c "<"))).
    + reflexivity.
    + intros a Hlt _. by rewrite Hlt.
    + right. intros a Hlt. by rewrite Hlt.
Qed.

Lemma replaceChar_absent c rep s :
  allChars (fun a => negb (Ascii.eqb a c)) s = true → replaceChar c rep s = s.
Proof.
  induction s as [|a s IH]; [reflexivity|]. cbn [allChars replaceChar].
  intros [Ha Hs]%andb_prop. apply negb_true_iff in Ha. by rewrite Ha, IH.
Qed.

Lemma allChars_impl (P Q : ascii → bool) s :
  (∀ a, P a = true → Q a = true) → allChars P s = true → allChars Q s = true.
Proof.
  intros HPQ. induction s as [|a s IH]; [done|]. cbn [allChars].
  intros [Ha Hs]%andb_prop. by rewrite (HPQ _ Ha), IH.
Qed.

Lemma escapeHtml_plain s : noMarkup s = true → escapeHtml (Some s) = s.
Proof.
  unfold noMarkup, escapeHtml. cbn [orEmpty]. intros Hs.
  rewrite (replaceChar_absent "&"), (replaceChar_absent "<"),
    (replaceChar_absent ">"); [reflexivity|..];
    (eapply allChars_impl; [|exact Hs]); cbn beta; intros a Ha;
    apply negb_true_iff in Ha;
    apply orb_false_elim in Ha as [Ha Hgt];
    apply orb_false_elim in Ha as [Hamp Hlt];
    by rewrite ?Hamp, ?Hlt, ?Hgt.
Qed.

(** X20.  No markup survives into the side-by-side diff: in every block
    built from legacy segments, the HTML of every token is free of [<]
    and [>], whatever the segments hold; text without [&], [<] and [>]
    is passed unchanged. *)
Theorem blocks_hold_no_markup
    (diff_segments : list DiffInline.DiffSegment) (b : Block) (t : Token) :
  b ∈ toBlocks diff_segments →
  t ∈ old b ++ new b →
  noAngle (html t) = true
  ∧ ∀ s, noMarkup s = true → escapeHtml (Some s) = s.
Proof.
  intros [seg [-> _]]%list_elem_of_fmap Ht.
  split; [|apply escapeHtml_plain].
  unfold toBlock in Ht.
  destruct (String.eqb (DiffInline.op seg) "replace");
    [|destruct (String.eqb (DiffInline.op seg) "delete");
      [|destruct (String.eqb (DiffInline.op seg) "insert")]];
    cbn [old new app] in Ht;
    repeat (apply elem_of_cons in Ht as [->|Ht]; [apply escapeHtml_noAngle|]);
    by apply elem_of_nil in Ht.
Qed.

Lemma blocks_hold_no_markup_example :
  let seg := {| DiffInline.op := "replace";
                DiffInline.orig := Some "a <b> & c";
                DiffInline.suggested := Some "<script>" |} in
  html <$> new (toBlock seg) = ["&lt;script&gt;"]
  ∧ Forall (fun t => noAngle (html t) = true) (old (toBlock seg) ++ new (toBlock seg)).
Proof.
  intros seg. split; [vm_compute; reflexivity|].
  apply Forall_forall. intros t Ht.
  apply (blocks_hold_no_markup [seg] (toBlock seg) t); [by left | exact Ht].
Defined.

(** *** The target page *)

Lemma targetPage_cases documentData affectedSection :
  targetPage documentData affectedSection
  = match documentData ≫= pages with
    | None => 1%Z
    | Some ps =>
        match findPage (substringTo 50 (trim (looseText affectedSection))) ps with
        | Some n => if (n =? 0)%Z then 1%Z else n
        | None => 1%Z
        end
    end.
Proof.
  unfold targetPage. destruct (documentData ≫= pages) as [ps|]; [|reflexivity].
  cbv zeta.
  destruct (findPage _ ps) as [n|]; cbn [falsyPage]; [|reflexivity].
  destruct (Z.eqb_spec n 0) as [->|Hn]; [reflexivity|].
  cbn [falsyPage default]. by destruct (Z.eqb_spec n 0).
Qed.

Lemma findPage_none chunk ps :
  Forall (fun q => includes chunk (looseText (text q)) = false) ps →
  findPage chunk ps = None.
Proof.
  induction 1 as [|q ps Hq _ IH]; [reflexivity|]. cbn [findPage]. by rewrite Hq.
Qed.

Lemma findPage_first chunk pre p post :
  Forall (fun q => includes chunk (looseText (text q)) = false) pre →
  includes chunk (looseText (text p)) = true →
  findPage chunk (pre ++ p :: post) = Some (page_number p).
Proof.
  induction 1 as [|q pre Hq _ IH]; intros Hp; cbn [app findPage].
  - by rewrite Hp.
  - rewrite Hq. by apply IH.
Qed.

Lemma not_contained_includes chunk (ps : list PageRecord) :
  Forall (fun q => ¬ ∃ a b, looseText (text q) = a +:+ chunk +:+ b) ps →
  Forall (fun q => includes chunk (looseText (text q)) = false) ps.
Proof.
  intros Hno. eapply Forall_impl; [exact Hno|]. cbn beta. intros q Hq.
  destruct (includes chunk (looseText (text q))) eqn:Hin; [|reflexivity].
  apply LocatorExtra.includes_spec in Hin. contradiction.
Qed.

(** X21.  The page sent with an approved change is never 0.  With
    [chunk] the first 50 characters of the section once white space is
    collapsed, letters lower-cased and the ends trimmed, and a page
    holding [chunk] when its collapsed, lower-cased text contains it as
    a substring: the target page is the number of the first page, in
    document order, that holds [chunk] (1 if that number is 0), and 1
    when no page holds it or the document has no pages.  The fallback
    search of the handler never changes this. *)
Theorem targetPage_is_first_match
    (documentData : option DocumentData) (affectedSection : option string) :
  let chunk := substringTo 50 (trim (looseText affectedSection)) in
  let holds := fun q : PageRecord =>
    ∃ a b, looseText (text q) = a +:+ chunk +:+ b in
  targetPage documentData affectedSection ≠ 0%Z
  ∧ (documentData ≫= pages = None →
     targetPage documentData affectedSection = 1%Z)
  ∧ (∀ ps, documentData ≫= pages = Some ps →
           Forall (fun q => ¬ holds q) ps →
           targetPage documentData affectedSection = 1%Z)
  ∧ (∀ pre p post,
       documentData ≫= pages = Some (pre ++ p :: post) →
       Forall (fun q => ¬ holds q) pre →
       holds p →
       targetPage documentData affectedSection
       = (if (page_number p =? 0)%Z then 1%Z else page_number p)).
Proof.
  intros chunk holds. subst holds. split; [|split; [|split]].
  - rewrite targetPage_cases. destruct (documentData ≫= pages) as [ps|]; [|done].
    destruct (findPage _ ps) as [n|]; [|done]. by destruct (Z.eqb_spec n 0).
  - intros Hnone. by rewrite targetPage_cases, Hnone.
  - intros ps Hps Hno. rewrite targetPage_cases, Hps. fold chunk.
    by rewrite (findPage_none _ _ (not_contained_includes _ _ Hno)).
  - intros pre p post Hps Hno Hp. rewrite targetPage_cases, Hps. fold chunk.
    rewrite (findPage_first _ _ _ _ (not_contained_includes _ _ Hno)); [reflexivity|].
    by apply LocatorExtra.includes_spec.
Qed.

Lemma targetPage_is_first_match_example :
  let p1 := {| page_number := 4; text := Some "Table of contents" |} in
  let p2 := {| page_number := 5; text := Some "The  DRUG substance is stable." |} in
  let p3 := {| page_number := 6; text := Some "the drug substance is stable, as shown" |} in
  let doc := Some {| num_pages := 3; pages := Some [p1; p2; p3] |} in
  targetPage doc (Some " The drug   Substance ") = 5%Z
  ∧ targetPage (Some {| num_pages := 1; pages := Some [p1] |})
               (Some " The drug   Substance ") = 1%Z.
Proof.
  intros p1 p2 p3 doc.
  destruct (targetPage_is_first_match doc (Some " The drug   Substance "))
    as (_ & _ & _ & Hfirst).
  destruct (targetPage_is_first_match
              (Some {| num_pages := 1; pages := Some [p1] |})
              (Some " The drug   Substance ")) as (_ & _ & Hnone & _).
  assert (Hp1 : ¬ ∃ a b, looseText (text p1)
                         = a +:+ substringTo 50 (trim (looseText (Some " The drug   Substance "))) +:+ b).
  { intros Hin. apply LocatorExtra.includes_spec in Hin.
    vm_compute in Hin. discriminate. }
  split.
  - apply (Hfirst [p1] p2 [p3]); [reflexivity | by constructor |].
    exists "", " is stable.". vm_compute. reflexivity.
  - apply (Hnone [p1]); [reflexivity | by constructor].
Defined.

Lemma findPage_blank p ps : findPage "" (p :: ps) = Some (page_number p).
Proof. cbn. by destruct (looseText (text p)). Qed.

Lemma trimEnd_empty s : trimEnd s = "" → allChars isWhiteSpace s = true.
Proof.
  induction s as [|c s IH]; [done|]. cbn [trimEnd allChars].
  destruct (trimEnd s) as [|k kept]; [|discriminate].
  destruct (isWhiteSpace c); [|discriminate]. intros _. by rewrite IH.
Qed.

Lemma trimStart_empty s : trimStart s = "" → allChars isWhiteSpace s = true.
Proof.
  induction s as [|c s IH]; [done|]. cbn [trimStart allChars].
  destruct (isWhiteSpace c); [|discriminate]. exact IH.
Qed.

Lemma trim_empty s : trim s = "" ↔ allChars isWhiteSpace s = true.
Proof.
  unfold trim. split.
  - intros Hend. apply trimStart_empty.
    pose proof (NormalizeProps.startsClean_trimStart s) as Hclean.
    apply trimEnd_empty in Hend.
    destruct (trimStart s) as [|c t]; [reflexivity|].
    cbn in Hclean, Hend. apply andb_prop in Hend as [Hc _].
    rewrite Hc in Hclean. discriminate.
  - intros Hall. assert (trimStart s = "") as ->; [|reflexivity].
    induction s as [|c s IH]; [reflexivity|]. cbn [allChars trimStart] in *.
    apply andb_prop in Hall as [-> Hs]. by apply IH.
Qed.

Lemma looseText_blank s :
  allChars isWhiteSpace s = true →
  allChars isWhiteSpace (toLowerCase (collapseWhiteSpace false s)) = true.
Proof.
  generalize false. induction s as [|c s IH]; intros b; [done|].
  cbn [allChars collapseWhiteSpace]. intros [Hc Hs]%andb_prop. rewrite Hc.
  destruct b; [by apply IH|]. cbn [toLowerCase allChars]. by rewrite IH.
Qed.

(** X22.  A missing, empty or all-blank section matches everywhere:
    the target page is then the number of the first page of the
    document (1 if that number is 0). *)
Theorem targetPage_of_blank_section
    (documentData : option DocumentData) (affectedSection : option string)
    (p : PageRecord) (ps : list PageRecord) :
  documentData ≫= pages = Some (p :: ps) →
  trim (orEmpty affectedSection) = "" →
  targetPage documentData affectedSection
  = (if (page_number p =? 0)%Z then 1%Z else page_number p).
Proof.
  intros Hps Hblank. rewrite targetPage_cases, Hps.
  assert (Htarget : trim (looseText affectedSection) = "").
  { apply trim_empty, looseText_blank, trim_empty, Hblank. }
  by rewrite Htarget, findPage_blank.
Qed.

Lemma targetPage_of_blank_section_example :
  let doc := Some {| num_pages := 2;
                     pages := Some [ {| page_number := 7; text := Some "Cover" |};
                                     {| page_number := 8; text := Some "Body" |} ] |} in
  targetPage doc (Some "   ") = 7%Z.
Proof.
  intros doc.
  apply (targetPage_of_blank_section doc (Some "   ")
           {| page_number := 7; text := Some "Cover" |}
           [ {| page_number := 8; text := Some "Body" |} ]); reflexivity.
Defined.

(** *** The anchors *)

Lemma substring_split n : ∀ s, substringTo n s +:+ substringFrom n s = s.
Proof.
  induction n as [|n IH]; intros s; [by destruct s|].
  destruct s as [|c s]; [reflexivity|].
  cbn [substringTo substringFrom]. by rewrite DiffInlineProps.append_cons, IH.
Qed.

Lemma length_substringTo n : ∀ s,
  String.length (substringTo n s) = Nat.min n (String.length s).
Proof.
  induction n as [|n IH]; intros s; [by destruct s|].
  destruct s as [|c s]; [reflexivity|]. cbn. by rewrite IH.
Qed.

Lemma length_substringFrom n : ∀ s,
  String.length (substringFrom n s) = String.length s - n.
Proof.
  induction n as [|n IH]; intros s; [destruct s; cbn; lia|].
  destruct s as [|c s]; [reflexivity|]. cbn. by rewrite IH.
Qed.

Lemma substringTo_whole n : ∀ s, String.length s ≤ n → substringTo n s = s.
Proof.
  induction n as [|n IH]; intros s Hlen.
  - destruct s; [reflexivity | cbn in Hlen; lia].
  - destruct s as [|c s]; [reflexivity|]. cbn in *. rewrite IH; [reflexivity | lia].
Qed.

(** X23.  A change is posted only after confirmation and for a trimmed
    section of at least 10 characters.  The page sent is not 0; the
    start anchor is the beginning and the end anchor the end of the
    trimmed section, 100 characters each or the whole section when it
    is shorter. *)
Theorem approveChanges_anchors
    (confirmed : bool) (documentData : option DocumentData)
    (affectedSection : option string) (sectionLlmData : option SectionLlmData)
    (request : ReplaceRequest) :
  approveChanges confirmed documentData affectedSection sectionLlmData
  = Posted request →
  confirmed = true
  ∧ 10 ≤ String.length (trim (orEmpty affectedSection))
  ∧ page request ≠ 0%Z
  ∧ String.length (start_anchor request)
    = Nat.min 100 (String.length (trim (orEmpty affectedSection)))
  ∧ String.length (end_anchor request)
    = Nat.min 100 (String.length (trim (orEmpty affectedSection)))
  ∧ (∃ rest, trim (orEmpty affectedSection) = start_anchor request +:+ rest)
  ∧ (∃ front, trim (orEmpty affectedSection) = front +:+ end_anchor request)
  ∧ (String.length (trim (orEmpty affectedSection)) ≤ 100 →
     start_anchor request = trim (orEmpty affectedSection)
     ∧ end_anchor request = trim (orEmpty affectedSection)).
Proof.
  unfold approveChanges. destruct confirmed; [|discriminate].
  change (negb true) with false. cbv iota.
  set (original := trim (orEmpty affectedSection)).
  destruct (String.eqb original ""); [discriminate|]. rewrite orb_false_l.
  destruct (Nat.ltb_spec (String.length original) 10) as [|Hlen]; [discriminate|].
  destruct sectionLlmData as [data|]; [|discriminate].
  intros Heq.
  apply (f_equal (fun o => match o with Posted r => r | _ => request end)) in Heq.
  cbv beta iota in Heq. subst request.
  unfold page, start_anchor, end_anchor.
  split; [reflexivity|]. split; [exact Hlen|].
  split.
  { rewrite targetPage_cases. destruct (documentData ≫= pages) as [ps|]; [|done].
    destruct (findPage _ ps) as [n|]; [|done]. by destruct (Z.eqb_spec n 0). }
  rewrite length_substringTo, length_substringFrom.
  split; [lia|]. split; [lia|].
  split.
  { exists (substringFrom (Nat.min 100 (String.length original)) original).
    by rewrite substring_split. }
  split.
  { exists (substringTo (String.length original - 100) original).
    by rewrite substring_split. }
  intros Hshort. split.
  - apply substringTo_whole. lia.
  - replace (String.length original - 100) with 0 by lia. by destruct original.
Qed.

Lemma approveChanges_anchors_example :
  let section := Some "  The drug substance is stable.  " in
  ∃ request,
    approveChanges true None section
      (Some {| suggested_cmc_rewrite := Some "The drug substance is stable for 24 months." |})
    = Posted request
    ∧ start_anchor request = "The drug substance is stable."
    ∧ page request ≠ 0%Z.
Proof.
  intros section.
  assert (Hrun : ∃ request,
            approveChanges true None section
              (Some {| suggested_cmc_rewrite :=
                         Some "The drug substance is stable for 24 months." |})
            = Posted request
            ∧ start_anchor request = "The drug substance is stable.")
    by (vm_compute; eauto).
  destruct Hrun as (request & Hrun & Hstart). exists request.
  split; [exact Hrun|]. split; [exact Hstart|].
  exact (proj1 (proj2 (proj2 (approveChanges_anchors _ _ _ _ _ Hrun)))).
Defined.

End CommentPanelProps.
